(** * kvstore: storage engines, replicated state machine, consensus node
      and consistent-hash ring

    A shallow embedding of the Go sources

      - [cmd/server/main.go] (package [storage]: [Value], [MemoryStorage]),
      - [internal/storage/disk_storage.go] ([DiskStorage]),
      - [internal/raft/fsm.go] ([FSM.Apply], [FSM.Snapshot], [FSM.Restore]),
      - [internal/raft/node.go] ([Node.Set], [Node.Delete], ...),
      - [pkg/consistenthash/consistenthash.go] ([Map]) and the hash of its
      test [TestHashing],
      - package [api] ([handleGet], [handleSet], [handleDelete],
      [handleGetAll], [handleHealth]) with the counters of
      [internal/metrics/metrics.go],

    followed by the vocabulary of the properties of the specification that
    concern them, by the properties themselves, C1 to C10, and by further
    properties of the same code, X1 to X26.

    Conventions of the embedding.

    - A Go method [T.M] is the definition [T_M]; the receiver comes first
      and the updated receiver is returned next to the Go results.
    - A Go [error] result is an [option error] ([None] is [nil]); a
      [(Value, error)] result is a [result Value].
    - [time.Now().UnixNano()] is the argument [now] of the operation that
      reads the clock; an operation is taken at one clock reading.
    - The directory of a [DiskStorage] is the finite map [files] from file
      names to directory entries; a file's bytes are kept as what
      [json.Unmarshal] makes of them.  Faults of the operating system are
      the argument [io] of the operations that touch the directory.
    - Mutexes are left out: the operations are taken one at a time. *)

From Stdlib Require Import ZArith Lia String Ascii List DecimalString.

From stdpp Require Import gmap strings list fin_maps sorting.

Local Open Scope Z_scope.

(** ** Package [storage] *)

(** [ErrKeyNotFound], [ErrKeyExpired] (package storage), [ErrNotLeader],
    [ErrTimeout] (package raft) are the sentinel errors of the sources.
    [ErrIO] stands for the errors of package [os], [ErrSyntax] for those of
    [encoding/json], [ErrRaft] for the errors the consensus library
    reports through a future. *)
Inductive error : Type :=
  | ErrKeyNotFound
  | ErrKeyExpired
  | ErrNotLeader
  | ErrTimeout
  | ErrIO
  | ErrSyntax
  | ErrRaft.

Inductive result (A : Type) : Type :=
  | Ok (a : A)
  | Err (e : error).

Arguments Ok {A} a.

Arguments Err {A} e.

(** [type Value struct { Data []byte; Expiration int64 }] *)
Record Value : Type := mkValue {
  Data : list Byte.byte;
  Expiration : Z
}.

(** The test [val.Expiration > 0 && val.Expiration < time.Now().UnixNano()]
    that every access path repeats. *)
Definition expired (val : Value) (now : Z) : bool :=
  (0 <? Expiration val) && (Expiration val <? now).

(** *** [MemoryStorage] *)

Abbreviation MemoryStorage := (gmap string Value).

Definition NewMemoryStorage : MemoryStorage := ∅.

Definition MemoryStorage_Set (m : MemoryStorage) (key : string) (value : Value)
  : option error * MemoryStorage :=
  (None, <[key := value]> m).

Definition MemoryStorage_Delete (m : MemoryStorage) (key : string)
  : option error * MemoryStorage :=
  (None, delete key m).

Definition MemoryStorage_Get (m : MemoryStorage) (key : string) (now : Z)
  : result Value * MemoryStorage :=
  match m !! key with
  | None => (Err ErrKeyNotFound, m)
  | Some val =>
      if expired val now
      then (Err ErrKeyExpired, snd (MemoryStorage_Delete m key))
      else (Ok val, m)
  end.

Definition MemoryStorage_Has (m : MemoryStorage) (key : string) (now : Z) : bool :=
  match m !! key with
  | None => false
  | Some val => if expired val now then false else true
  end.

(** The body of the loop of [Keys]: expired entries are skipped. *)
Definition keep_live (now : Z) (kv : string * Value) (keys : list string) : list string :=
  if expired (snd kv) now then keys else fst kv :: keys.

(** [for k, v := range m.data]: the order of the keys is that of the map
    iteration, which Go leaves unspecified. *)
Definition MemoryStorage_Keys (m : MemoryStorage) (now : Z) : list string :=
  foldr (keep_live now) [] (map_to_list m).

Definition MemoryStorage_Clear (m : MemoryStorage) : option error * MemoryStorage :=
  (None, ∅).

Definition MemoryStorage_Close (m : MemoryStorage) : option error * MemoryStorage :=
  (None, snd (MemoryStorage_Clear m)).

(** *** [DiskStorage] *)

(** What a name in the directory stands for.  [Stored v] is a regular file
    whose bytes [json.Unmarshal] decodes to [v] (in particular the bytes
    [json.Marshal v] that [Set] writes); [Malformed] is a regular file that
    does not decode; [Unreadable] is a regular file [os.ReadFile] fails on. *)
Inductive Entry : Type :=
  | Directory
  | Unreadable
  | Malformed
  | Stored (v : Value).

(** Faults of the operating system during one operation. *)
Record IO : Type := mkIO {
  readdir_fails : bool;
  write_fails : string -> bool;
  remove_fails : string -> bool
}.

Definition io_ok : IO :=
  {| readdir_fails := false;
     write_fails := fun _ => false;
     remove_fails := fun _ => false |}.

Record DiskStorage : Type := mkDisk {
  memory : gmap string Value;
  files : gmap string Entry
}.

(** [os.Remove(filepath.Join(d.dirPath, name))]: [None] on success,
    [Some true] when the file does not exist, [Some false] otherwise. *)
Definition os_Remove (io : IO) (fs : gmap string Entry) (name : string)
  : option bool * gmap string Entry :=
  match fs !! name with
  | None => (Some true, fs)
  | Some _ => if remove_fails io name then (Some false, fs) else (None, delete name fs)
  end.

(** [os.WriteFile(filepath.Join(d.dirPath, name), data, 0644)] with [data]
    the bytes of [value]; a directory cannot be written to, and a failed
    write leaves the directory as it was. *)
Definition os_WriteFile (io : IO) (fs : gmap string Entry) (name : string) (value : Value)
  : option error * gmap string Entry :=
  match fs !! name with
  | Some Directory => (Some ErrIO, fs)
  | _ => if write_fails io name then (Some ErrIO, fs) else (None, <[name := Stored value]> fs)
  end.

(** [os.ReadDir]: the entries of the directory, sorted by file name. *)
Definition name_le (a b : string * Entry) : Prop :=
  String.leb (fst a) (fst b) = true.

#[local] Instance name_le_dec : RelDecision name_le.
Proof. intros a b. unfold name_le. apply _. Defined.

Definition os_ReadDir (io : IO) (fs : gmap string Entry) : result (list (string * Entry)) :=
  if readdir_fails io then Err ErrIO else Ok (merge_sort name_le (map_to_list fs)).

(** The body of the loop of [loadFromDisk]. *)
Definition load_entry (now : Z) (io : IO) (d : DiskStorage) (file : string * Entry)
  : DiskStorage :=
  match snd file with
  | Directory => d
  | Unreadable => d
  | Malformed => d
  | Stored value =>
      if expired value now
      then {| memory := memory d; files := snd (os_Remove io (files d) (fst file)) |}
      else {| memory := snd (MemoryStorage_Set (memory d) (fst file) value);
              files := files d |}
  end.

Definition DiskStorage_loadFromDisk (d : DiskStorage) (now : Z) (io : IO)
  : option error * DiskStorage :=
  match os_ReadDir io (files d) with
  | Err e => (Some e, d)
  | Ok entries => (None, foldl (load_entry now io) d entries)
  end.

Definition DiskStorage_Delete (d : DiskStorage) (key : string) (io : IO)
  : option error * DiskStorage :=
  let mem := snd (MemoryStorage_Delete (memory d) key) in
  match os_Remove io (files d) key with
  | (Some false, fs) => (Some ErrIO, {| memory := mem; files := fs |})
  | (_, fs) => (None, {| memory := mem; files := fs |})
  end.

Definition DiskStorage_Set (d : DiskStorage) (key : string) (value : Value) (io : IO)
  : option error * DiskStorage :=
  match MemoryStorage_Set (memory d) key value with
  | (Some err, mem) => (Some err, {| memory := mem; files := files d |})
  | (None, mem) =>
      let (err, fs) := os_WriteFile io (files d) key value in
      (err, {| memory := mem; files := fs |})
  end.

Definition DiskStorage_Get (d : DiskStorage) (key : string) (now : Z) (io : IO)
  : result Value * DiskStorage :=
  match MemoryStorage_Get (memory d) key now with
  | (Ok val, mem) => (Ok val, {| memory := mem; files := files d |})
  | (Err _, mem) =>
      let d1 := {| memory := mem; files := files d |} in
      match files d !! key with
      | None => (Err ErrKeyNotFound, d1)
      | Some Directory => (Err ErrIO, d1)
      | Some Unreadable => (Err ErrIO, d1)
      | Some Malformed => (Err ErrSyntax, d1)
      | Some (Stored value) =>
          if expired value now
          then (Err ErrKeyExpired, snd (DiskStorage_Delete d1 key io))
          else (Ok value,
                {| memory := snd (MemoryStorage_Set mem key value); files := files d |})
      end
  end.

Definition DiskStorage_Has (d : DiskStorage) (key : string) (now : Z) (io : IO)
  : bool * DiskStorage :=
  if MemoryStorage_Has (memory d) key now then (true, d)
  else
    match files d !! key with
    | None => (false, d)
    | Some Directory => (false, d)
    | Some Unreadable => (false, d)
    | Some Malformed => (false, d)
    | Some (Stored value) =>
        if expired value now
        then (false, snd (DiskStorage_Delete d key io))
        else (true,
              {| memory := snd (MemoryStorage_Set (memory d) key value);
                 files := files d |})
    end.

Definition DiskStorage_Keys (d : DiskStorage) (now : Z) (io : IO)
  : list string * DiskStorage :=
  match DiskStorage_loadFromDisk d now io with
  | (Some _, d') => (MemoryStorage_Keys (memory d') now, d')
  | (None, d') => (MemoryStorage_Keys (memory d') now, d')
  end.

(** The loop of [Clear]: remove every entry that is not a directory, and
    stop at the first removal that fails. *)
Fixpoint clear_files (io : IO) (fs : gmap string Entry) (entries : list (string * Entry))
  : option error * gmap string Entry :=
  match entries with
  | [] => (None, fs)
  | file :: rest =>
      match snd file with
      | Directory => clear_files io fs rest
      | _ =>
          match os_Remove io fs (fst file) with
          | (Some _, fs') => (Some ErrIO, fs')
          | (None, fs') => clear_files io fs' rest
          end
      end
  end.

Definition DiskStorage_Clear (d : DiskStorage) (io : IO) : option error * DiskStorage :=
  let mem := snd (MemoryStorage_Clear (memory d)) in
  match os_ReadDir io (files d) with
  | Err e => (Some e, {| memory := mem; files := files d |})
  | Ok entries =>
      let (err, fs) := clear_files io (files d) entries in
      (err, {| memory := mem; files := fs |})
  end.

Definition DiskStorage_Close (d : DiskStorage) : option error * DiskStorage :=
  (None, d).


(** *** The [Storage] interface

    The two backends behind the interface the FSM and the node hold. *)

Inductive Storage : Type :=
  | Volatile (m : MemoryStorage)
  | Durable (d : DiskStorage).

Definition Storage_Get (s : Storage) (key : string) (now : Z) (io : IO)
  : result Value * Storage :=
  match s with
  | Volatile m => let (r, m') := MemoryStorage_Get m key now in (r, Volatile m')
  | Durable d => let (r, d') := DiskStorage_Get d key now io in (r, Durable d')
  end.

Definition Storage_Set (s : Storage) (key : string) (value : Value) (io : IO)
  : option error * Storage :=
  match s with
  | Volatile m => let (r, m') := MemoryStorage_Set m key value in (r, Volatile m')
  | Durable d => let (r, d') := DiskStorage_Set d key value io in (r, Durable d')
  end.

Definition Storage_Delete (s : Storage) (key : string) (io : IO)
  : option error * Storage :=
  match s with
  | Volatile m => let (r, m') := MemoryStorage_Delete m key in (r, Volatile m')
  | Durable d => let (r, d') := DiskStorage_Delete d key io in (r, Durable d')
  end.

Definition Storage_Has (s : Storage) (key : string) (now : Z) (io : IO)
  : bool * Storage :=
  match s with
  | Volatile m => (MemoryStorage_Has m key now, Volatile m)
  | Durable d => let (r, d') := DiskStorage_Has d key now io in (r, Durable d')
  end.

Definition Storage_Keys (s : Storage) (now : Z) (io : IO) : list string * Storage :=
  match s with
  | Volatile m => (MemoryStorage_Keys m now, Volatile m)
  | Durable d => let (r, d') := DiskStorage_Keys d now io in (r, Durable d')
  end.

Definition Storage_Clear (s : Storage) (io : IO) : option error * Storage :=
  match s with
  | Volatile m => let (r, m') := MemoryStorage_Clear m in (r, Volatile m')
  | Durable d => let (r, d') := DiskStorage_Clear d io in (r, Durable d')
  end.

Definition Storage_Close (s : Storage) : option error * Storage :=
  match s with
  | Volatile m => let (r, m') := MemoryStorage_Close m in (r, Volatile m')
  | Durable d => let (r, d') := DiskStorage_Close d in (r, Durable d')
  end.

(** ** Package [raft]: the state machine *)

(** [type Command struct { Op string; Key string; Value storage.Value }] *)
Record Command : Type := mkCommand {
  Op : string;
  Key : string;
  CmdValue : Value
}.

(** The [Data] of a [raft.Log] is kept as what [json.Unmarshal] makes of
    it: [None] when it does not decode to a [Command]. *)
Abbreviation Log := (option Command).

(** [FSM.Apply]; the receiver is the store the FSM holds. *)
Definition FSM_Apply (store : Storage) (log : Log) (io : IO) : option error * Storage :=
  match log with
  | None => (Some ErrSyntax, store)
  | Some cmd =>
      if String.eqb (Op cmd) "set" then Storage_Set store (Key cmd) (CmdValue cmd) io
      else if String.eqb (Op cmd) "delete" then Storage_Delete store (Key cmd) io
      else if String.eqb (Op cmd) "deleteAll" then Storage_Clear store io
      else (None, store)
  end.

(** The loop of [Snapshot]: [data[key] = value] for the keys [Get] returns
    without error. *)
Definition snapshot_key (now : Z) (io : IO) (acc : gmap string Value * Storage)
  (key : string) : gmap string Value * Storage :=
  match Storage_Get (snd acc) key now io with
  | (Ok value, s) => (<[key := value]> (fst acc), s)
  | (Err _, s) => (fst acc, s)
  end.

(** [FSM.Snapshot]: the [data] of the [fsmSnapshot] it returns. *)
Definition FSM_Snapshot (store : Storage) (now : Z) (io : IO)
  : gmap string Value * Storage :=
  let (keys, s) := Storage_Keys store now io in
  foldl (snapshot_key now io) (∅, s) keys.

(** A snapshot source is kept as what [json.NewDecoder(rc).Decode] makes of
    it: [None] when it does not decode, and the map [Persist] encoded
    otherwise. *)
Abbreviation ReadCloser := (option (gmap string Value)).


(** The loop of [Restore]: a key that cannot be set is logged and skipped. *)
Definition restore_key (io : IO) (s : Storage) (kv : string * Value) : Storage :=
  snd (Storage_Set s (fst kv) (snd kv) io).

(** [FSM.Restore]: clear, decode, replay. *)
Definition FSM_Restore (store : Storage) (rc : ReadCloser) (io : IO)
  : option error * Storage :=
  match Storage_Clear store io with
  | (Some err, s) => (Some err, s)
  | (None, s) =>
      match rc with
      | None => (Some ErrSyntax, s)
      | Some data => (None, foldl (restore_key io) s (map_to_list data))
      end
  end.

(** ** Package [raft]: the node *)

(** [raft.RaftState] of the consensus library. *)
Inductive RaftState : Type :=
  | Follower
  | Candidate
  | Leader
  | Shutdown.

#[local] Instance RaftState_eq_dec : EqDecision RaftState.
Proof. solve_decision. Defined.

(** The node: its identity, the role its consensus module reports
    ([n.raft.State()]) and the store, which the node and its FSM share. *)
Record Node : Type := mkNode {
  ID : string;
  raft_State : RaftState;
  store : Storage
}.

(** What the future of [n.raft.Apply(b, raftTimeout)] resolves to: the
    entry was committed and applied to the FSM of this node, or the
    library gave up with an error. *)
Inductive ApplyFuture : Type :=
  | Committed
  | Failed (e : error).

(** [f := n.raft.Apply(b, raftTimeout); return f.Error()], with [b] the
    bytes of [cmd]: the error of the future, not the result of the FSM. *)
Definition raft_Apply (n : Node) (cmd : Command) (fut : ApplyFuture) (io : IO)
  : option error * Node :=
  match fut with
  | Committed =>
      (None, {| ID := ID n; raft_State := raft_State n;
                store := snd (FSM_Apply (store n) (Some cmd) io) |})
  | Failed e => (Some e, n)
  end.

Definition Node_Get (n : Node) (key : string) (now : Z) (io : IO) : result Value * Node :=
  let (r, s) := Storage_Get (store n) key now io in
  (r, {| ID := ID n; raft_State := raft_State n; store := s |}).

Definition Node_Set (n : Node) (key : string) (value : Value) (fut : ApplyFuture) (io : IO)
  : option error * Node :=
  if decide (raft_State n ≠ Leader) then (Some ErrNotLeader, n)
  else raft_Apply n {| Op := "set"; Key := key; CmdValue := value |} fut io.

Definition Node_Delete (n : Node) (key : string) (fut : ApplyFuture) (io : IO)
  : option error * Node :=
  if decide (raft_State n ≠ Leader) then (Some ErrNotLeader, n)
  else raft_Apply n {| Op := "delete"; Key := key; CmdValue := mkValue [] 0 |} fut io.

Definition Node_Keys (n : Node) (now : Z) (io : IO) : list string * Node :=
  let (r, s) := Storage_Keys (store n) now io in
  (r, {| ID := ID n; raft_State := raft_State n; store := s |}).

Definition Node_IsLeader (n : Node) : bool :=
  bool_decide (raft_State n = Leader).

(** [time.Millisecond], [time.Second]: a [time.Duration] counts
    nanoseconds. *)
Definition Millisecond : Z := 1000000.

Definition Second : Z := 1000 * Millisecond.

Definition raftTimeout : Z := 10 * Second.

Definition leaderWaitDelay : Z := 100 * Millisecond.

Definition maxLeaderWait : Z := 10 * Second.

(** The loop of [WaitForLeader].  Each turn reads the clock and then the
    leader the consensus module knows of ([n.raft.Leader()]); the readings
    are the list [obs], one pair per turn.  [None]: the readings have run
    out before the loop has ended. *)
Fixpoint wait_loop (timeout : Z) (obs : list (Z * string)) : option (option error) :=
  match obs with
  | [] => None
  | (now, leader) :: rest =>
      if now <? timeout
      then if decide (leader ≠ ""%string) then Some None else wait_loop timeout rest
      else Some (Some ErrTimeout)
  end.

(** [WaitForLeader], called at the clock reading [start]:
    [timeout := time.Now().Add(maxLeaderWait)], then the loop. *)
Definition Node_WaitForLeader (start : Z) (obs : list (Z * string))
  : option (option error) :=
  wait_loop (start + maxLeaderWait) obs.

(** ** Package [consistenthash] *)

(** [type Hash func(data []byte) uint32]; the ring turns the result into an
    [int], of 64 bits here, which keeps its value. *)
Abbreviation Hash := (string -> Z).

(** [crc32.ChecksumIEEE] of the Go library, bit by bit: the default hash
    of [New]. *)
Definition crc32_bit (x : Z) : Z :=
  if Z.testbit x 0 then Z.lxor (Z.shiftr x 1) 0xEDB88320 else Z.shiftr x 1.

Definition crc32_byte (crc : Z) (c : ascii) : Z :=
  Nat.iter 8 crc32_bit (Z.lxor crc (Z.of_N (N_of_ascii c))).

Definition ChecksumIEEE (data : string) : Z :=
  Z.lxor (fold_left crc32_byte (list_ascii_of_string data) 0xFFFFFFFF) 0xFFFFFFFF.

(** [strconv.Itoa] *)
Definition Itoa (i : Z) : string := NilZero.string_of_int (Z.to_int i).

Record Map : Type := mkMap {
  hash : Hash;
  replicas : Z;
  keys : list Z;
  hashMap : gmap Z string
}.

Definition New (replicas : Z) (fn : option Hash) : Map :=
  {| hash := match fn with Some f => f | None => ChecksumIEEE end;
     replicas := replicas;
     keys := [];
     hashMap := ∅ |}.

(** [sort.Ints] *)
Definition sort_Ints (l : list Z) : list Z := merge_sort Z.le l.

(** [sort.Search] of the Go library: the binary search
    [i, j := 0, n; for i < j { h := int(uint(i+j) >> 1); if !f(h) { i = h + 1 } else { j = h } }],
    the loop unrolled [fuel] times. *)
Fixpoint search_loop (fuel : nat) (f : nat -> bool) (i j : nat) : nat :=
  match fuel with
  | O => i
  | S fuel' =>
      if (i <? j)%nat
      then let h := ((i + j) / 2)%nat in
           if negb (f h) then search_loop fuel' f (h + 1)%nat j
           else search_loop fuel' f i h
      else i
  end.

Definition sort_Search (n : nat) (f : nat -> bool) : nat := search_loop n f 0%nat n.

(** The body of the inner loop of [Add]. *)
Definition add_replica (key : string) (m : Map) (i : Z) : Map :=
  let h := hash m (Itoa i ++ key) in
  {| hash := hash m;
     replicas := replicas m;
     keys := keys m ++ [h];
     hashMap := <[h := key]> (hashMap m) |}.

Definition add_node (m : Map) (key : string) : Map :=
  foldl (add_replica key) m (seqZ 0 (replicas m)).

Definition Map_Add (m : Map) (nodes : list string) : Map :=
  let m' := foldl add_node m nodes in
  {| hash := hash m';
     replicas := replicas m';
     keys := sort_Ints (keys m');
     hashMap := hashMap m' |}.

(** [m.keys[i]]: an index out of range panics in Go; the accesses of [Get]
    are in range. *)
Definition at_index (l : list Z) (i : nat) : Z := nth i l 0.

(** The index [Get] ends up with: the result of the search, or 0 when the
    search has run off the end of the ring. *)
Definition Get_idx (m : Map) (key : string) : nat :=
  let h := hash m key in
  let idx := sort_Search (length (keys m)) (fun i => bool_decide (h <= at_index (keys m) i)) in
  if decide (idx = length (keys m)) then 0%nat else idx.

Definition Map_Get (m : Map) (key : string) : string :=
  if decide (length (keys m) = 0%nat) then ""%string
  else default ""%string (hashMap m !! at_index (keys m) (Get_idx m key)).

(** The scan [for j, k := range m.keys { if k == hash { idx = j; break } }]. *)
Fixpoint index_of (h : Z) (l : list Z) : option nat :=
  match l with
  | [] => None
  | k :: l' => if decide (k = h) then Some 0%nat else S <$> index_of h l'
  end.

(** The body of the loop of [Remove]. *)
Definition remove_replica (key : string) (m : Map) (i : Z) : Map :=
  let h := hash m (Itoa i ++ key) in
  match index_of h (keys m) with
  | None => m
  | Some idx =>
      {| hash := hash m;
         replicas := replicas m;
         keys := take idx (keys m) ++ drop (S idx) (keys m);
         hashMap := delete h (hashMap m) |}
  end.

Definition Map_Remove (m : Map) (key : string) : Map :=
  foldl (remove_replica key) m (seqZ 0 (replicas m)).

(** [GetAll]: the distinct values of [hashMap], in the order of the map
    iteration. *)
Definition Map_GetAll (m : Map) : list string :=
  remove_dups (map_to_list (hashMap m)).*2.

(** The hash of [TestHashing]:
    [func(key []byte) uint32 { i, _ := strconv.Atoi(string(key)); return uint32(i) }]. *)
Definition digit_of (c : ascii) : option Z :=
  let n := Z.of_N (N_of_ascii c) in
  if decide (48 <= n <= 57) then Some (n - 48) else None.

Fixpoint parse_digits (acc : Z) (s : string) : option Z :=
  match s with
  | EmptyString => Some acc
  | String c s' =>
      match digit_of c with
      | Some n => parse_digits (10 * acc + n) s'
      | None => None
      end
  end.

(** [strconv.Atoi], the value it returns next to its error: 0 on a syntax
    error, the nearest [int] on a range error. *)
Definition Atoi (s : string) : Z :=
  let clamp (z : Z) := Z.max (- 2 ^ 63) (Z.min (2 ^ 63 - 1) z) in
  let unsigned (t : string) (sign : Z) :=
    match t with
    | EmptyString => 0
    | _ => match parse_digits 0 t with Some n => clamp (sign * n) | None => 0 end
    end in
  match s with
  | String "+" t => unsigned t 1
  | String "-" t => unsigned t (-1)
  | _ => unsigned s 1
  end.

Definition atoi_hash : Hash := fun key => Atoi key mod 2 ^ 32.

(** ** Package [metrics] *)

(** The counters and the histograms of [Metrics]: a counter is the number
    of its increments, a histogram the number of its observations.  The
    gauges, which no handler touches, are left out. *)
Record Metrics : Type := mkMetrics {
  gets : nat;
  sets : nat;
  deletes : nat;
  getHits : nat;
  getMisses : nat;
  raftApplies : nat;
  getLatency : nat;
  setLatency : nat;
  deleteLatency : nat
}.

Definition Metrics_IncGet (m : Metrics) : Metrics :=
  {| gets := S (gets m); sets := sets m; deletes := deletes m; getHits := getHits m;
     getMisses := getMisses m; raftApplies := raftApplies m; getLatency := getLatency m;
     setLatency := setLatency m; deleteLatency := deleteLatency m |}.

Definition Metrics_IncSet (m : Metrics) : Metrics :=
  {| gets := gets m; sets := S (sets m); deletes := deletes m; getHits := getHits m;
     getMisses := getMisses m; raftApplies := raftApplies m; getLatency := getLatency m;
     setLatency := setLatency m; deleteLatency := deleteLatency m |}.

Definition Metrics_IncDelete (m : Metrics) : Metrics :=
  {| gets := gets m; sets := sets m; deletes := S (deletes m); getHits := getHits m;
     getMisses := getMisses m; raftApplies := raftApplies m; getLatency := getLatency m;
     setLatency := setLatency m; deleteLatency := deleteLatency m |}.

Definition Metrics_IncGetHit (m : Metrics) : Metrics :=
  {| gets := gets m; sets := sets m; deletes := deletes m; getHits := S (getHits m);
     getMisses := getMisses m; raftApplies := raftApplies m; getLatency := getLatency m;
     setLatency := setLatency m; deleteLatency := deleteLatency m |}.

Definition Metrics_IncGetMiss (m : Metrics) : Metrics :=
  {| gets := gets m; sets := sets m; deletes := deletes m; getHits := getHits m;
     getMisses := S (getMisses m); raftApplies := raftApplies m; getLatency := getLatency m;
     setLatency := setLatency m; deleteLatency := deleteLatency m |}.

Definition Metrics_IncRaftApply (m : Metrics) : Metrics :=
  {| gets := gets m; sets := sets m; deletes := deletes m; getHits := getHits m;
     getMisses := getMisses m; raftApplies := S (raftApplies m); getLatency := getLatency m;
     setLatency := setLatency m; deleteLatency := deleteLatency m |}.

Definition Metrics_ObserveGetLatency (m : Metrics) : Metrics :=
  {| gets := gets m; sets := sets m; deletes := deletes m; getHits := getHits m;
     getMisses := getMisses m; raftApplies := raftApplies m; getLatency := S (getLatency m);
     setLatency := setLatency m; deleteLatency := deleteLatency m |}.

Definition Metrics_ObserveSetLatency (m : Metrics) : Metrics :=
  {| gets := gets m; sets := sets m; deletes := deletes m; getHits := getHits m;
     getMisses := getMisses m; raftApplies := raftApplies m; getLatency := getLatency m;
     setLatency := S (setLatency m); deleteLatency := deleteLatency m |}.

Definition Metrics_ObserveDeleteLatency (m : Metrics) : Metrics :=
  {| gets := gets m; sets := sets m; deletes := deletes m; getHits := getHits m;
     getMisses := getMisses m; raftApplies := raftApplies m; getLatency := getLatency m;
     setLatency := setLatency m; deleteLatency := S (deleteLatency m) |}.

(** ** Package [api] *)

#[local] Instance error_eq_dec : EqDecision error.
Proof. solve_decision. Defined.

(** The status codes of [net/http] the handlers answer with. *)
Definition StatusOK : Z := 200.

Definition StatusTemporaryRedirect : Z := 307.

Definition StatusBadRequest : Z := 400.

Definition StatusNotFound : Z := 404.

Definition StatusInternalServerError : Z := 500.

(** What a handler writes after the status line: the bytes of [w.Write],
    the message of [http.Error] (a literal, or the text [err.Error()] of
    an error), or the JSON object with the field "keys". *)
Inductive Body : Type :=
  | Written (data : list Byte.byte)
  | ErrorLine (msg : string)
  | ErrorOf (err : error)
  | KeysJSON (keys : list string).

(** The answer of a handler: its status code and its body; the headers
    are left out. *)
Record Response : Type := mkResponse {
  StatusCode : Z;
  body : Body
}.

(** [type Server struct { node *raft.Node; ...; metrics *metrics.Metrics; ... }] *)
Record Server : Type := mkServer {
  node : Node;
  metrics : Metrics
}.

(** [w.WriteHeader(http.StatusOK); w.Write([]byte("OK"))] *)
Definition respond_OK : Response :=
  {| StatusCode := StatusOK; body := Written (list_byte_of_string "OK") |}.

(** Arithmetic in [int64]: the value modulo 2^64, in the signed range. *)
Definition int64 (z : Z) : Z := (z + 2 ^ 63) mod 2 ^ 64 - 2 ^ 63.

(** [strconv.ParseInt(s, 10, 64)]: [None] when it returns an error, which
    it does on a syntax error and on a value out of the range of [int64]. *)
Definition ParseInt (s : string) : option Z :=
  let unsigned (t : string) (sign : Z) :=
    match t with
    | EmptyString => None
    | _ => match parse_digits 0 t with
           | Some n => if decide (- 2 ^ 63 <= sign * n <= 2 ^ 63 - 1)
                       then Some (sign * n) else None
           | None => None
           end
    end in
  match s with
  | String "+" t => unsigned t 1
  | String "-" t => unsigned t (-1)
  | _ => unsigned s 1
  end.

(** [time.Now().Add(time.Duration(ttl) * time.Second).UnixNano()] at the
    clock reading [now]: the product and the sum are taken in [int64]. *)
Definition expiration_after (now ttl : Z) : Z := int64 (now + int64 (ttl * Second)).

(** The expiration [handleSet] gives to the value, from the parameter
    [ttl] of the query (the empty string when there is none): [None] when
    the handler rejects the parameter. *)
Definition parse_ttl (ttlStr : string) (now : Z) : option Z :=
  if decide (ttlStr ≠ ""%string)
  then match ParseInt ttlStr with
       | None => None
       | Some ttl => Some (if decide (0 < ttl) then expiration_after now ttl else 0)
       end
  else Some 0.

Definition handleGet (s : Server) (key : string) (now : Z) (io : IO) : Response * Server :=
  let (r, n) := Node_Get (node s) key now io in
  let m := Metrics_ObserveGetLatency (metrics s) in
  match r with
  | Err err =>
      if decide (err = ErrKeyNotFound \/ err = ErrKeyExpired)
      then ({| StatusCode := StatusNotFound; body := ErrorOf err |},
            {| node := n; metrics := Metrics_IncGetMiss m |})
      else ({| StatusCode := StatusInternalServerError; body := ErrorOf err |},
            {| node := n; metrics := m |})
  | Ok value =>
      ({| StatusCode := StatusOK; body := Written (Data value) |},
       {| node := n; metrics := Metrics_IncGetHit m |})
  end.

(** [handleSet]; [data] is what [io.ReadAll(r.Body)] returns and [ttlStr]
    the parameter [ttl] of the query. *)
Definition handleSet (s : Server) (key : string) (data : result (list Byte.byte))
    (ttlStr : string) (now : Z) (fut : ApplyFuture) (io : IO) : Response * Server :=
  match data with
  | Err err => ({| StatusCode := StatusBadRequest; body := ErrorOf err |}, s)
  | Ok data =>
      match parse_ttl ttlStr now with
      | None => ({| StatusCode := StatusBadRequest; body := ErrorLine "invalid TTL" |}, s)
      | Some expiration =>
          let value := {| Data := data; Expiration := expiration |} in
          let (err, n) := Node_Set (node s) key value fut io in
          let s' := {| node := n;
                       metrics := Metrics_IncSet (Metrics_ObserveSetLatency (metrics s)) |} in
          match err with
          | Some err =>
              if decide (err = ErrNotLeader)
              then ({| StatusCode := StatusTemporaryRedirect;
                       body := ErrorLine "not the leader" |}, s')
              else ({| StatusCode := StatusInternalServerError; body := ErrorOf err |}, s')
          | None => (respond_OK, s')
          end
      end
  end.

Definition handleDelete (s : Server) (key : string) (fut : ApplyFuture) (io : IO)
  : Response * Server :=
  let (err, n) := Node_Delete (node s) key fut io in
  let s' := {| node := n;
               metrics := Metrics_IncDelete (Metrics_ObserveDeleteLatency (metrics s)) |} in
  match err with
  | Some err =>
      if decide (err = ErrNotLeader)
      then ({| StatusCode := StatusTemporaryRedirect; body := ErrorLine "not the leader" |}, s')
      else ({| StatusCode := StatusInternalServerError; body := ErrorOf err |}, s')
  | None => (respond_OK, s')
  end.

Definition handleGetAll (s : Server) (now : Z) (io : IO) : Response * Server :=
  let (keys, n) := Node_Keys (node s) now io in
  ({| StatusCode := StatusOK; body := KeysJSON keys |}, {| node := n; metrics := metrics s |}).

Definition handleHealth (s : Server) : Response * Server := (respond_OK, s).

(** * Vocabulary of the properties

    The predicates the statements below are written with, and the
    concrete stores, rings and logs they are tried on. *)

(** What [loadFromDisk] makes of the cache entry [old] of a name whose
    directory entry is [e]. *)
Definition load_mem_at (now : Z) (e : option Entry) (old : option Value) : option Value :=
  match e with
  | Some (Stored v) => if expired v now then old else Some v
  | _ => old
  end.

(** What [loadFromDisk] leaves in the directory under the name [k], listed
    as [e] and currently [cur]. *)
Definition load_file_at (now : Z) (io : IO) (k : string) (e cur : option Entry)
  : option Entry :=
  match e with
  | Some (Stored v) =>
      if expired v now
      then match cur with
           | None => None
           | Some _ => if remove_fails io k then cur else None
           end
      else cur
  | _ => cur
  end.


(** A node that follows, with one key in its store. *)
Definition follower_node : Node :=
  {| ID := "node1";
     raft_State := Follower;
     store := Volatile {[ "a"%string := mkValue [] 0 ]} |}.

(** The key is in neither the cache nor the directory. *)
Definition absent (s : Storage) (k : string) : Prop :=
  match s with
  | Volatile m => m !! k = None
  | Durable d => memory d !! k = None /\ files d !! k = None
  end.



(** A value that expires at time 10. *)
Definition stale_value : Value := mkValue [Byte.x61] 10.



(** The key has an entry that is not expired: in the map of the volatile
    backend; for the durable backend in the cache or in a record on disk. *)
Definition live (s : Storage) (k : string) (now : Z) : Prop :=
  match s with
  | Volatile m => exists v, m !! k = Some v /\ expired v now = false
  | Durable d =>
      (exists v, memory d !! k = Some v /\ expired v now = false) \/
      (exists v, files d !! k = Some (Stored v) /\ expired v now = false)
  end.



(** Every write fails. *)
Definition failing_write : IO :=
  {| readdir_fails := false;
     write_fails := fun _ => true;
     remove_fails := fun _ => false |}.

(** A durable store on an empty directory. *)
Definition empty_disk : DiskStorage := {| memory := ∅; files := ∅ |}.



(** The rings a program can build: [New], then any sequence of [Add] and
    [Remove]. *)
Inductive RingOp : Type :=
  | OpAdd (nodes : list string)
  | OpRemove (node : string).

(** One operation, and a sequence of them. *)
Definition ring_step (m : Map) (op : RingOp) : Map :=
  match op with
  | OpAdd nodes => Map_Add m nodes
  | OpRemove node => Map_Remove m node
  end.

Definition ring_run (m : Map) (ops : list RingOp) : Map := foldl ring_step m ops.

(** [p] is the position the ring assigns to the hash [h]: the smallest
    position that is at least [h], or the smallest position of all when
    no position is at least [h]. *)
Definition ring_successor (ks : list Z) (h p : Z) : Prop :=
  p ∈ ks /\
  ((h <= p /\ forall q, q ∈ ks -> h <= q -> p <= q) \/
   ((forall q, q ∈ ks -> q < h) /\ forall q, q ∈ ks -> p <= q)).

(** Every position of the ring has an owner. *)
Definition owned (m : Map) : Prop :=
  forall p, p ∈ keys m -> is_Some (hashMap m !! p).

(** The ring of [TestHashing]: three replicas, the hash that reads the key
    as a number, and the nodes "6", "4" and "2". *)
Definition test_ring : Map := Map_Add (New 3 (Some atoi_hash)) ["6"; "4"; "2"]%string.

(** The default hash; the node "a" is added twice and removed once. *)
Definition twice_added_ring : Map :=
  Map_Remove (Map_Add (Map_Add (New 3 None) ["a"; "b"]%string) ["a"%string]) "a".

(** The hash of [TestHashing]; the replica 0 of the node "12" and the
    replica 1 of the node "2" both hash to 12. *)
Definition colliding_ring : Map := Map_Add (New 3 (Some atoi_hash)) ["2"%string].





(** The entries of the log, applied in order. *)
Definition FSM_run (io : IO) (store : Storage) (logs : list Log) : Storage :=
  foldl (fun s log => snd (FSM_Apply s log io)) store logs.




(** A log: two sets, an entry that does not decode, a delete and an
    entry with an op the state machine does not know. *)
Definition sample_log : list Log :=
  [ Some (mkCommand "set" "a" (mkValue [Byte.x31] 0));
    Some (mkCommand "set" "b" (mkValue [Byte.x32] 0));
    None;
    Some (mkCommand "delete" "a" (mkValue [] 0));
    Some (mkCommand "join" "node2" (mkValue [] 0)) ].

(** The map a store reads first: its map, or its cache. *)
Definition cache_of (s : Storage) : gmap string Value :=
  match s with
  | Volatile m => m
  | Durable d => memory d
  end.

(** Every live cache entry is the record the directory holds under its
    key, or sits on the name of a subdirectory (which cannot be written):
    the state of a durable store on which no write has failed. *)
Definition cache_backed (s : Storage) (now : Z) : Prop :=
  match s with
  | Volatile _ => True
  | Durable d =>
      forall k v, memory d !! k = Some v -> expired v now = false ->
        files d !! k = Some (Stored v) \/ files d !! k = Some Directory
  end.

(** The value of a cache entry, unless it is expired. *)
Definition live_value (mv : option Value) (now : Z) : option Value :=
  match mv with
  | Some v => if expired v now then None else Some v
  | None => None
  end.

(** The value of a record on disk, unless it is expired. *)
Definition disk_value (e : option Entry) (now : Z) : option Value :=
  match e with
  | Some (Stored v) => if expired v now then None else Some v
  | _ => None
  end.

(** The value a read finds under the key: the live cache entry, or else
    the live record on disk. *)
Definition visible (s : Storage) (now : Z) (k : string) : option Value :=
  match s with
  | Volatile m => live_value (m !! k) now
  | Durable d =>
      match live_value (memory d !! k) now with
      | Some v => Some v
      | None => disk_value (files d !! k) now
      end
  end.

(** What [DiskStorage.Get] returns, from the cache entry and the directory
    entry of the key. *)
Definition get_result (mv : option Value) (e : option Entry) (now : Z) : result Value :=
  match live_value mv now with
  | Some v => Ok v
  | None =>
      match e with
      | None => Err ErrKeyNotFound
      | Some Directory => Err ErrIO
      | Some Unreadable => Err ErrIO
      | Some Malformed => Err ErrSyntax
      | Some (Stored v) => if expired v now then Err ErrKeyExpired else Ok v
      end
  end.

(** The name is that of a subdirectory. *)
Definition dir_at (fs : gmap string Entry) (k : string) : bool :=
  match fs !! k with
  | Some Directory => true
  | _ => false
  end.



(** A directory with a live record that is also cached, an expired
    record, a file that does not decode and a subdirectory; the cache
    still holds an expired entry whose file is gone. *)
Definition mixed_disk : Storage :=
  Durable {| memory := {[ "a"%string := mkValue [Byte.x31] 0;
                          "c"%string := stale_value ]};
             files := {[ "a"%string := Stored (mkValue [Byte.x31] 0);
                         "b"%string := Stored stale_value;
                         "junk"%string := Malformed;
                         "sub"%string := Directory ]} |}.

(** The positions of a node on the ring: the hashes of its replicas. *)
Definition positions (m : Map) (node : string) : list Z :=
  (fun i => hash m (Itoa i ++ node)) <$> seqZ 0 (replicas m).

(** Every owner sits on a position of the ring, and on one of its own. *)
Definition placed (m : Map) : Prop :=
  forall p node, hashMap m !! p = Some node -> p ∈ keys m /\ p ∈ positions m node.

(** The nodes a sequence of operations adds. *)
Definition added_nodes (ops : list RingOp) : list string :=
  ops ≫= (fun op => match op with OpAdd nodes => nodes | OpRemove _ => [] end).

(** The readings of the loop of [WaitForLeader] are at least
    [leaderWaitDelay] apart, the first of them not before [prev]: what
    [time.Sleep(leaderWaitDelay)] between two turns gives. *)
Fixpoint paced (prev : Z) (obs : list (Z * string)) : Prop :=
  match obs with
  | [] => True
  | (now, _) :: rest => prev <= now /\ paced (now + leaderWaitDelay) rest
  end.

(** A leader is seen at a reading taken before the deadline. *)
Definition leader_seen (timeout : Z) (obs : list (Z * string)) : Prop :=
  exists now leader, (now, leader) ∈ obs /\ now < timeout /\ leader ≠ ""%string.

(** The readings of an election that takes three turns of the loop. *)
Definition slow_election : list (Z * string) :=
  (fun i => (Z.of_nat i * leaderWaitDelay,
             if (i <? 3)%nat then ""%string else "node2"%string)) <$> seq 0 101.

(** A server whose node leads, on an empty volatile store. *)
Definition leader_server : Server :=
  {| node := {| ID := "node1"; raft_State := Leader; store := Volatile NewMemoryStorage |};
     metrics := mkMetrics 0 0 0 0 0 0 0 0 0 |}.

(** A server whose node follows. *)
Definition follower_server : Server :=
  {| node := follower_node; metrics := mkMetrics 0 0 0 0 0 0 0 0 0 |}.


(** * Properties of the storage engines *)

(** ** Expiration *)



(** ** The volatile backend *)

Lemma keys_of_list_elem (now : Z) (l : list (string * Value)) (k : string) :
  k ∈ foldr (keep_live now) [] l <-> exists v, (k, v) ∈ l /\ expired v now = false.
Proof.
  induction l as [|[k' v'] l IH]; simpl.
  - split; [intros H; inversion H | intros (v & H & _); inversion H].
  - unfold keep_live at 1; simpl. destruct (expired v' now) eqn:E.
    + rewrite IH. split; intros (v & Hin & Hv).
      * exists v. split; [by apply list_elem_of_further | done].
      * exists v. split; [|done].
        apply elem_of_cons in Hin as [Heq | Hin]; [|done].
        inversion Heq; subst. congruence.
    + rewrite elem_of_cons, IH. split.
      * intros [-> | (v & Hin & Hv)].
        -- exists v'. split; [apply list_elem_of_here | done].
        -- exists v. split; [by apply list_elem_of_further | done].
      * intros (v & Hin & Hv).
        apply elem_of_cons in Hin as [Heq | Hin].
        -- inversion Heq; subst. by left.
        -- right. by exists v.
Qed.

Lemma keys_of_list_NoDup (now : Z) (l : list (string * Value)) :
  NoDup l.*1 -> NoDup (foldr (keep_live now) [] l).
Proof.
  induction l as [|[k' v'] l IH]; simpl; [constructor|].
  intros Hnd. apply NoDup_cons in Hnd as [Hnotin Hnd].
  unfold keep_live at 1; simpl. destruct (expired v' now); [by apply IH|].
  apply NoDup_cons. split; [|by apply IH].
  intros Hin. apply keys_of_list_elem in Hin as (v & Hin & _).
  apply Hnotin. apply list_elem_of_fmap. by exists (k', v).
Qed.

Lemma MemoryStorage_Keys_elem (m : gmap string Value) (now : Z) (k : string) :
  k ∈ MemoryStorage_Keys m now <-> exists v, m !! k = Some v /\ expired v now = false.
Proof.
  unfold MemoryStorage_Keys. rewrite keys_of_list_elem.
  split; intros (v & H & Hv); exists v; (split; [|done]);
    by apply elem_of_map_to_list.
Qed.

Lemma MemoryStorage_Keys_NoDup (m : gmap string Value) (now : Z) :
  NoDup (MemoryStorage_Keys m now).
Proof. apply keys_of_list_NoDup, NoDup_fst_map_to_list. Qed.


Lemma MemoryStorage_Get_live (m : gmap string Value) (k : string) (v : Value) (now : Z) :
  m !! k = Some v -> expired v now = false -> MemoryStorage_Get m k now = (Ok v, m).
Proof. intros Hk Hv. unfold MemoryStorage_Get. by rewrite Hk, Hv. Qed.


Lemma MemoryStorage_Get_absent (m : gmap string Value) (k : string) (now : Z) :
  m !! k = None -> MemoryStorage_Get m k now = (Err ErrKeyNotFound, m).
Proof. intros Hk. unfold MemoryStorage_Get. by rewrite Hk. Qed.

(** ** The durable backend: the directory *)

Lemma os_ReadDir_ok (io : IO) (fs : gmap string Entry) :
  readdir_fails io = false ->
  exists entries, os_ReadDir io fs = Ok entries /\
    NoDup entries.*1 /\ list_to_map (M:=gmap string Entry) entries = fs.
Proof.
  intros Hio. unfold os_ReadDir. rewrite Hio. eexists. split; [done|].
  pose proof (merge_sort_Permutation name_le (map_to_list fs)) as Hp.
  split.
  - rewrite Hp. apply NoDup_fst_map_to_list.
  - rewrite <- (list_to_map_to_list fs) at 2.
    apply list_to_map_proper; [|done].
    rewrite Hp. apply NoDup_fst_map_to_list.
Qed.

Lemma load_fold_lookup (now : Z) (io : IO) (entries : list (string * Entry))
    (d : DiskStorage) (k : string) :
  NoDup entries.*1 ->
  let d' := foldl (load_entry now io) d entries in
  memory d' !! k = load_mem_at now (list_to_map (M:=gmap string Entry) entries !! k) (memory d !! k) /\
  files d' !! k = load_file_at now io k (list_to_map (M:=gmap string Entry) entries !! k) (files d !! k).
Proof.
  revert d. induction entries as [|[n e] l IH]; intros d Hnd; simpl.
  - by rewrite lookup_empty.
  - apply NoDup_cons in Hnd as [Hn Hnd].
    destruct (IH (load_entry now io d (n, e)) Hnd) as [IHm IHf].
    rewrite IHm, IHf. clear IHm IHf IH.
    destruct (decide (n = k)) as [->|Hne].
    + rewrite lookup_insert_eq.
      rewrite (not_elem_of_list_to_map_1 l k Hn). simpl.
      unfold load_entry, os_Remove; simpl.
      destruct e as [| | |v]; simpl; try done.
      destruct (expired v now); simpl.
      * destruct (files d !! k) eqn:Hk; simpl; [|by rewrite Hk].
        destruct (remove_fails io k); simpl; [by rewrite Hk|].
        by rewrite lookup_delete_eq.
      * by rewrite lookup_insert_eq.
    + rewrite lookup_insert_ne by done.
      assert (memory (load_entry now io d (n, e)) !! k = memory d !! k /\
              files (load_entry now io d (n, e)) !! k = files d !! k) as [-> ->]; [|done].
      unfold load_entry, os_Remove; simpl.
      destruct e as [| | |v]; simpl; try done.
      destruct (expired v now); simpl.
      * destruct (files d !! n); simpl; [|done].
        destruct (remove_fails io n); simpl; [done|].
        by rewrite lookup_delete_ne.
      * by rewrite lookup_insert_ne.
Qed.

Lemma DiskStorage_loadFromDisk_ok (d : DiskStorage) (now : Z) (io : IO) :
  readdir_fails io = false ->
  exists d', DiskStorage_loadFromDisk d now io = (None, d') /\
    (forall k, memory d' !! k = load_mem_at now (files d !! k) (memory d !! k)) /\
    (forall k, files d' !! k = load_file_at now io k (files d !! k) (files d !! k)).
Proof.
  intros Hio. unfold DiskStorage_loadFromDisk.
  destruct (os_ReadDir_ok io (files d) Hio) as (entries & -> & Hnd & Hmap).
  eexists. split; [done|].
  split; intros k; destruct (load_fold_lookup now io entries d k Hnd) as [Hm Hf];
    by rewrite <- Hmap at 1.
Qed.






(** ** The interface on the durable backend *)

Lemma Storage_Get_durable (d : DiskStorage) (k : string) (now : Z) (io : IO) :
  Storage_Get (Durable d) k now io
  = (fst (DiskStorage_Get d k now io), Durable (snd (DiskStorage_Get d k now io))).
Proof. simpl. by destruct (DiskStorage_Get d k now io). Qed.

Lemma Storage_Set_durable (d : DiskStorage) (k : string) (v : Value) (io : IO) :
  Storage_Set (Durable d) k v io
  = (fst (DiskStorage_Set d k v io), Durable (snd (DiskStorage_Set d k v io))).
Proof. simpl. by destruct (DiskStorage_Set d k v io). Qed.

Lemma Storage_Delete_durable (d : DiskStorage) (k : string) (io : IO) :
  Storage_Delete (Durable d) k io
  = (fst (DiskStorage_Delete d k io), Durable (snd (DiskStorage_Delete d k io))).
Proof. simpl. by destruct (DiskStorage_Delete d k io). Qed.

Lemma Storage_Has_durable (d : DiskStorage) (k : string) (now : Z) (io : IO) :
  Storage_Has (Durable d) k now io
  = (fst (DiskStorage_Has d k now io), Durable (snd (DiskStorage_Has d k now io))).
Proof. simpl. by destruct (DiskStorage_Has d k now io). Qed.

Lemma Storage_Keys_durable (d : DiskStorage) (now : Z) (io : IO) :
  Storage_Keys (Durable d) now io
  = (fst (DiskStorage_Keys d now io), Durable (snd (DiskStorage_Keys d now io))).
Proof. simpl. by destruct (DiskStorage_Keys d now io). Qed.

Lemma Storage_Clear_durable (d : DiskStorage) (io : IO) :
  Storage_Clear (Durable d) io
  = (fst (DiskStorage_Clear d io), Durable (snd (DiskStorage_Clear d io))).
Proof. simpl. by destruct (DiskStorage_Clear d io). Qed.

(** ** Leader-only mutation *)

(** C1. For every key and value, [Set] and [Delete] on a node whose
    consensus role is not [Leader] return [ErrNotLeader], whatever the
    consensus module or the operating system would have answered, and the
    node comes back as it was: in particular its store holds the same
    keys and values. *)
Theorem non_leader_mutation_rejected (n : Node) (key : string) (value : Value)
    (fut : ApplyFuture) (io : IO) :
  raft_State n ≠ Leader ->
  Node_Set n key value fut io = (Some ErrNotLeader, n) /\
  Node_Delete n key fut io = (Some ErrNotLeader, n) /\
  store (snd (Node_Set n key value fut io)) = store n /\
  store (snd (Node_Delete n key fut io)) = store n.
Proof.
  intros Hrole. unfold Node_Set, Node_Delete.
  destruct (decide (raft_State n ≠ Leader)) as [_|Hl]; [done | by destruct Hl].
Qed.

Lemma non_leader_mutation_rejected_witness :
  raft_State follower_node ≠ Leader /\
  Node_Set follower_node "b" (mkValue [] 0) Committed io_ok
    = (Some ErrNotLeader, follower_node) /\
  Node_Delete follower_node "a" Committed io_ok = (Some ErrNotLeader, follower_node).
Proof.
  assert (raft_State follower_node ≠ Leader) as H by (simpl; discriminate).
  split; [exact H|].
  pose proof (non_leader_mutation_rejected follower_node "b" (mkValue [] 0)
                Committed io_ok H) as (HS & _).
  pose proof (non_leader_mutation_rejected follower_node "a" (mkValue [] 0)
                Committed io_ok H) as (_ & HD & _).
  exact (conj HS HD).
Defined.

(** On a leader whose entry is committed, [Set] does reach the store. *)
Example leader_set_is_applied :
  fst (Storage_Get
         (store (snd (Node_Set (mkNode "node1" Leader (Volatile NewMemoryStorage))
                        "b" (mkValue [Byte.x62] 0) Committed io_ok)))
         "b" 5 io_ok)
  = Ok (mkValue [Byte.x62] 0).
Proof. vm_compute. reflexivity. Qed.

(** ** Point reads: absent and expired keys *)


Lemma Storage_Get_absent (s : Storage) (k : string) (now : Z) (io : IO) :
  absent s k -> fst (Storage_Get s k now io) = Err ErrKeyNotFound.
Proof.
  destruct s as [m|d]; simpl.
  - intros Hk. by rewrite MemoryStorage_Get_absent.
  - intros [Hm Hf]. unfold DiskStorage_Get.
    rewrite (MemoryStorage_Get_absent _ _ _ Hm), Hf. done.
Qed.




(** ** Restore is not atomic *)







(** A clearing that fails is what [Restore] returns, without decoding. *)
Lemma restore_clear_error (s : Storage) (rc : ReadCloser) (io : IO) (e : error) :
  fst (Storage_Clear s io) = Some e -> FSM_Restore s rc io = (Some e, snd (Storage_Clear s io)).
Proof.
  intros Hc. unfold FSM_Restore.
  destruct (Storage_Clear s io) as [err s']. simpl in Hc. by subst err.
Qed.

(** ** [Keys] *)

Lemma load_mem_at_live (now : Z) (e : option Entry) (old : option Value) :
  (exists v, load_mem_at now e old = Some v /\ expired v now = false) <->
  (exists v, old = Some v /\ expired v now = false) \/
  (exists v, e = Some (Stored v) /\ expired v now = false).
Proof.
  unfold load_mem_at. destruct e as [[| | |v']|]; try (split; [by left | intros [H|(v & H & _)]; done]).
  destruct (expired v' now) eqn:Hv'.
  - split; [by left|]. intros [H|(v & H & Hv)]; [done|].
    inversion H; subst. congruence.
  - split.
    + intros (v & H & Hv). inversion H; subst. right. by exists v.
    + intros _. by exists v'.
Qed.

Lemma DiskStorage_Keys_elem (d : DiskStorage) (now : Z) (io : IO) (k : string) :
  readdir_fails io = false ->
  k ∈ fst (DiskStorage_Keys d now io) <-> live (Durable d) k now.
Proof.
  intros Hio. unfold DiskStorage_Keys.
  destruct (DiskStorage_loadFromDisk_ok d now io Hio) as (d' & -> & Hm & _). simpl.
  rewrite MemoryStorage_Keys_elem, Hm. apply load_mem_at_live.
Qed.

Lemma DiskStorage_Keys_NoDup (d : DiskStorage) (now : Z) (io : IO) :
  NoDup (fst (DiskStorage_Keys d now io)).
Proof.
  unfold DiskStorage_Keys.
  destruct (DiskStorage_loadFromDisk d now io) as [[e|] d']; simpl;
    apply MemoryStorage_Keys_NoDup.
Qed.

Lemma Storage_Keys_elem (s : Storage) (now : Z) (io : IO) (k : string) :
  readdir_fails io = false ->
  k ∈ fst (Storage_Keys s now io) <-> live s k now.
Proof.
  intros Hio. destruct s as [m|d].
  - apply MemoryStorage_Keys_elem.
  - rewrite Storage_Keys_durable. by apply DiskStorage_Keys_elem.
Qed.

Lemma Storage_Keys_NoDup (s : Storage) (now : Z) (io : IO) :
  NoDup (fst (Storage_Keys s now io)).
Proof.
  destruct s as [m|d].
  - apply MemoryStorage_Keys_NoDup.
  - rewrite Storage_Keys_durable. apply DiskStorage_Keys_NoDup.
Qed.




(** ** A failed disk write *)




(** * Properties of the consistent-hash ring *)

(** ** The embedding on the tests of the package *)

Example ChecksumIEEE_check : ChecksumIEEE "123456789" = 0xCBF43926.
Proof. vm_compute. reflexivity. Qed.

Example Itoa_12 : Itoa 12 = "12"%string.
Proof. reflexivity. Qed.

Example atoi_hash_212 : atoi_hash "212" = 212.
Proof. vm_compute. reflexivity. Qed.

(** [TestHashing] *)
Example TestHashing :
  keys test_ring = [2; 4; 6; 12; 14; 16; 22; 24; 26] /\
  map (Map_Get test_ring) ["2"; "11"; "23"; "27"]%string = ["2"; "2"; "4"; "2"]%string /\
  Map_Get (Map_Add test_ring ["8"%string]) "27" = "8"%string /\
  Map_Get (Map_Remove (Map_Add test_ring ["8"%string]) "8") "27" = "2"%string.
Proof. repeat split; vm_compute; reflexivity. Qed.

(** [TestGetAll] and [TestEmptyHash], up to the order of [GetAll]. *)
Example TestGetAll_TestEmptyHash :
  Map_GetAll (Map_Add (New 3 None) ["6"; "4"; "2"]%string) ≡ₚ ["6"; "4"; "2"]%string /\
  Map_Get (New 3 None) "key" = ""%string.
Proof.
  split; [|reflexivity].
  assert (Map_GetAll (Map_Add (New 3 None) ["6"; "4"; "2"]%string)
          = ["2"; "6"; "4"]%string) as -> by (vm_compute; reflexivity).
  etransitivity; [apply perm_swap|]. apply perm_skip, perm_swap.
Qed.

(** ** Binary search *)

Lemma search_loop_spec (n : nat) (f : nat -> bool) :
  (forall x y, (x <= y)%nat -> (y < n)%nat -> f x = true -> f y = true) ->
  forall fuel i j,
    (i <= j)%nat -> (j <= n)%nat -> (j - i <= fuel)%nat ->
    (forall x, (x < i)%nat -> f x = false) ->
    (forall x, (j <= x)%nat -> (x < n)%nat -> f x = true) ->
    let r := search_loop fuel f i j in
    (r <= n)%nat /\
    (forall x, (x < r)%nat -> f x = false) /\
    (forall x, (r <= x)%nat -> (x < n)%nat -> f x = true).
Proof.
  intros Hmono.
  induction fuel as [|fuel IH]; intros i j Hij Hjn Hfuel Hlo Hhi;
    cbv zeta; cbn [search_loop].
  - assert (i = j) as -> by lia. auto.
  - destruct (i <? j)%nat eqn:Hlt.
    + apply Nat.ltb_lt in Hlt.
      pose proof (Nat.div_mod_eq (i + j) 2) as Hdm.
      pose proof (Nat.mod_upper_bound (i + j) 2) as Hmb.
      set (h := ((i + j) / 2)%nat) in *.
      assert (i <= h /\ h < j)%nat as [Hih Hhj] by lia.
      destruct (f h) eqn:Hfh; cbn [negb].
      * apply IH; [lia | lia | lia | done |].
        intros x Hx Hxn. by apply (Hmono h x); [lia | lia |].
      * apply IH; [lia | lia | lia | | done].
        intros x Hx. destruct (f x) eqn:Hfx; [|done].
        rewrite (Hmono x h) in Hfh; [done|lia|lia|done].
    + apply Nat.ltb_ge in Hlt. assert (i = j) as -> by lia. auto.
Qed.

Lemma sort_Search_spec (n : nat) (f : nat -> bool) :
  (forall x y, (x <= y)%nat -> (y < n)%nat -> f x = true -> f y = true) ->
  (sort_Search n f <= n)%nat /\
  (forall x, (x < sort_Search n f)%nat -> f x = false) /\
  (forall x, (sort_Search n f <= x)%nat -> (x < n)%nat -> f x = true).
Proof.
  intros Hmono. unfold sort_Search.
  apply (search_loop_spec n f Hmono n 0%nat n); lia.
Qed.

(** ** The sorted ring *)

Lemma at_index_elem (l : list Z) (i : nat) : (i < length l)%nat -> at_index l i ∈ l.
Proof.
  unfold at_index. revert i. induction l as [|a l IH]; intros i Hi; simpl in *; [lia|].
  destruct i as [|i]; [apply list_elem_of_here|].
  apply list_elem_of_further, IH. lia.
Qed.

Lemma elem_at_index (l : list Z) (p : Z) :
  p ∈ l -> exists i, (i < length l)%nat /\ at_index l i = p.
Proof.
  unfold at_index. induction l as [|a l IH]; intros Hp.
  - by apply elem_of_nil in Hp.
  - apply elem_of_cons in Hp as [->|Hp].
    + exists 0%nat. simpl. split; [lia | done].
    + destruct (IH Hp) as (i & Hi & Hp'). exists (S i). simpl. split; [lia | done].
Qed.

Lemma StronglySorted_at_index (l : list Z) (i j : nat) :
  StronglySorted Z.le l -> (i <= j)%nat -> (j < length l)%nat ->
  at_index l i <= at_index l j.
Proof.
  unfold at_index. intros Hs. revert i j.
  induction Hs as [|a l Hs IH Hall]; intros i j Hij Hj; simpl in *; [lia|].
  destruct i as [|i], j as [|j]; try lia.
  - rewrite Forall_forall in Hall. apply Hall.
    apply (at_index_elem l j). lia.
  - apply IH; lia.
Qed.

Lemma StronglySorted_remove_at (l : list Z) (i : nat) :
  StronglySorted Z.le l -> StronglySorted Z.le (take i l ++ drop (S i) l).
Proof.
  intros Hs. revert i. induction Hs as [|a l Hs IH Hall]; intros i.
  - rewrite take_nil, drop_nil. constructor.
  - destruct i as [|i]; simpl.
    + rewrite ?drop_0. done.
    + constructor; [apply IH|].
      apply Forall_app. split; [by apply Forall_take | by apply Forall_drop].
Qed.

Lemma index_of_remove_elem (h : Z) (l : list Z) (idx : nat) (p : Z) :
  index_of h l = Some idx ->
  (p ∈ take idx l ++ drop (S idx) l -> p ∈ l) /\
  (p ≠ h -> p ∈ l -> p ∈ take idx l ++ drop (S idx) l).
Proof.
  revert idx. induction l as [|a l IH]; intros idx Hidx; simpl in *; [done|].
  destruct (decide (a = h)) as [->|Hne].
  - inversion Hidx; subst idx. simpl. rewrite drop_0. split.
    + intros Hp. by apply list_elem_of_further.
    + intros Hp Hin. apply elem_of_cons in Hin as [->|Hin]; done.
  - destruct (index_of h l) as [i|] eqn:Hi; simpl in Hidx; [|done].
    inversion Hidx; subst idx. simpl.
    destruct (IH i eq_refl) as [IH1 IH2]. split.
    + intros Hp. apply elem_of_cons in Hp as [->|Hp]; [apply list_elem_of_here|].
      apply list_elem_of_further. by apply IH1.
    + intros Hp Hin. apply elem_of_cons in Hin as [->|Hin]; [apply list_elem_of_here|].
      apply list_elem_of_further. by apply IH2.
Qed.

Lemma Map_Add_sorted (m : Map) (nodes : list string) :
  StronglySorted Z.le (keys (Map_Add m nodes)).
Proof. unfold Map_Add, sort_Ints. simpl. apply StronglySorted_merge_sort; apply _. Qed.

(** What one turn of the loop of [Remove] keeps: the order of the ring,
    the positions other than the one it looks for, and their owners. *)
Lemma remove_replica_spec (node : string) (m : Map) (i : Z) :
  let m' := remove_replica node m i in
  hash m' = hash m /\
  replicas m' = replicas m /\
  (StronglySorted Z.le (keys m) -> StronglySorted Z.le (keys m')) /\
  (forall q, q ∈ keys m' -> q ∈ keys m) /\
  (forall p, hash m (Itoa i ++ node) ≠ p ->
     (p ∈ keys m -> p ∈ keys m') /\ hashMap m' !! p = hashMap m !! p).
Proof.
  unfold remove_replica.
  destruct (index_of (hash m (Itoa i ++ node)) (keys m)) as [idx|] eqn:Hidx; simpl.
  - split; [done|]. split; [done|]. split; [|split].
    + intros Hsorted. by apply StronglySorted_remove_at.
    + intros q Hq. by apply (index_of_remove_elem _ _ _ q Hidx).
    + intros p Hne. split.
      * intros Hin. apply (index_of_remove_elem _ _ _ p Hidx); [congruence | done].
      * by apply lookup_delete_ne.
  - repeat split; auto.
Qed.

Lemma remove_fold_spec (node : string) (idxs : list Z) (m : Map) :
  let m' := foldl (remove_replica node) m idxs in
  hash m' = hash m /\
  replicas m' = replicas m /\
  (StronglySorted Z.le (keys m) -> StronglySorted Z.le (keys m')) /\
  (forall q, q ∈ keys m' -> q ∈ keys m) /\
  (forall p, (forall i, i ∈ idxs -> hash m (Itoa i ++ node) ≠ p) ->
     (p ∈ keys m -> p ∈ keys m') /\ hashMap m' !! p = hashMap m !! p).
Proof.
  revert m. induction idxs as [|i idxs IH]; intros m; simpl.
  - repeat split; auto.
  - destruct (IH (remove_replica node m i)) as (Hh & Hr & Hs & Hsub & Hkeep).
    destruct (remove_replica_spec node m i) as (Hh1 & Hr1 & Hs1 & Hsub1 & Hkeep1).
    rewrite Hh1 in Hkeep.
    split; [congruence|]. split; [congruence|]. split; [auto|]. split; [auto|].
    intros p Hp.
    destruct (Hkeep1 p) as [Hk1 Hm1]; [apply Hp; apply list_elem_of_here|].
    destruct (Hkeep p) as [Hk2 Hm2].
    { intros i' Hi'. apply Hp. by apply list_elem_of_further. }
    split; [auto | congruence].
Qed.

Lemma Map_Remove_sorted (m : Map) (node : string) :
  StronglySorted Z.le (keys m) -> StronglySorted Z.le (keys (Map_Remove m node)).
Proof.
  unfold Map_Remove.
  by destruct (remove_fold_spec node (seqZ 0 (replicas m)) m) as (_ & _ & Hs & _).
Qed.

Lemma New_sorted (r : Z) (fn : option Hash) : StronglySorted Z.le (keys (New r fn)).
Proof. constructor. Qed.

Lemma ring_run_sorted (m : Map) (ops : list RingOp) :
  StronglySorted Z.le (keys m) -> StronglySorted Z.le (keys (ring_run m ops)).
Proof.
  unfold ring_run. revert m. induction ops as [|op ops IH]; intros m Hs; simpl; [done|].
  apply IH. destruct op; simpl; [apply Map_Add_sorted | by apply Map_Remove_sorted].
Qed.

(** ** What [Get] returns *)

Lemma ring_successor_unique (ks : list Z) (h p p' : Z) :
  ring_successor ks h p -> ring_successor ks h p' -> p = p'.
Proof.
  intros [Hp [[H1 H2]|[H1 H2]]] [Hp' [[H1' H2']|[H1' H2']]].
  - pose proof (H2 p' Hp' H1'). pose proof (H2' p Hp H1). lia.
  - pose proof (H1' p Hp). lia.
  - pose proof (H1 p' Hp'). lia.
  - pose proof (H2 p' Hp'). pose proof (H2' p Hp). lia.
Qed.

Lemma Get_idx_successor (m : Map) (key : string) :
  StronglySorted Z.le (keys m) -> keys m ≠ [] ->
  ring_successor (keys m) (hash m key) (at_index (keys m) (Get_idx m key)).
Proof.
  intros Hs Hne. unfold Get_idx.
  set (h := hash m key). set (n := length (keys m)).
  set (f := fun i : nat => bool_decide (h <= at_index (keys m) i)).
  assert (0 < n)%nat as Hn.
  { subst n. destruct (keys m); [done | simpl; lia]. }
  destruct (sort_Search_spec n f) as (Hr & Hlo & Hhi).
  { intros x y Hxy Hy Hfx. subst f. simpl in *.
    apply bool_decide_eq_true in Hfx. apply bool_decide_eq_true.
    pose proof (StronglySorted_at_index (keys m) x y Hs Hxy Hy). lia. }
  destruct (decide (sort_Search n f = n)) as [Hend|Hin].
  - split; [apply at_index_elem; lia|]. right.
    assert (forall q, q ∈ keys m -> q < h) as Hall.
    { intros q Hq. apply elem_at_index in Hq as (i & Hi & <-).
      assert (f i = false) as Hfi by (apply Hlo; lia).
      subst f. simpl in Hfi. apply bool_decide_eq_false in Hfi. lia. }
    split; [done|].
    intros q Hq. apply elem_at_index in Hq as (i & Hi & <-).
    apply StronglySorted_at_index; [done | lia | done].
  - assert (sort_Search n f < n)%nat as Hlt by lia.
    split; [by apply at_index_elem|]. left.
    assert (f (sort_Search n f) = true) as Hf by (apply Hhi; lia).
    split.
    + subst f. simpl in Hf. by apply bool_decide_eq_true in Hf.
    + intros q Hq Hhq. apply elem_at_index in Hq as (i & Hi & <-).
      apply StronglySorted_at_index; [done | | done].
      destruct (decide (sort_Search n f <= i)%nat) as [|Hgt]; [done|].
      assert (f i = false) as Hfi by (apply Hlo; lia).
      subst f. simpl in Hfi. apply bool_decide_eq_false in Hfi. lia.
Qed.

Lemma Map_Get_successor (m : Map) (key : string) (p : Z) :
  StronglySorted Z.le (keys m) ->
  ring_successor (keys m) (hash m key) p ->
  Map_Get m key = default ""%string (hashMap m !! p).
Proof.
  intros Hs Hp. unfold Map_Get.
  destruct (decide (length (keys m) = 0%nat)) as [Hlen|Hlen].
  - destruct Hp as [Hp _]. destruct (keys m); [by apply elem_of_nil in Hp | done].
  - assert (keys m ≠ []) as Hne by (intros H; rewrite H in Hlen; done).
    by rewrite (ring_successor_unique _ _ _ _ (Get_idx_successor m key Hs Hne) Hp).
Qed.

Lemma Map_Get_empty (m : Map) (key : string) : keys m = [] -> Map_Get m key = ""%string.
Proof. intros H. unfold Map_Get. by rewrite H. Qed.

(** Removing a node moves no key whose position is not one of the node's
    positions. *)
Lemma Map_Remove_unaffected (m : Map) (node : string) (key : string) :
  StronglySorted Z.le (keys m) ->
  (forall p, ring_successor (keys m) (hash m key) p ->
     forall i, 0 <= i < replicas m -> hash m (Itoa i ++ node) ≠ p) ->
  Map_Get (Map_Remove m node) key = Map_Get m key.
Proof.
  intros Hs Hfree. unfold Map_Remove.
  destruct (remove_fold_spec node (seqZ 0 (replicas m)) m)
    as (Hh & _ & Hs' & Hsub & Hkeep).
  set (m' := foldl (remove_replica node) m (seqZ 0 (replicas m))) in *.
  destruct (decide (keys m = [])) as [Hnil|Hne].
  - rewrite !Map_Get_empty; [done | done |].
    destruct (keys m') as [|q l] eqn:Hk'; [done|].
    specialize (Hsub q (list_elem_of_here q l)).
    rewrite Hnil in Hsub. by apply elem_of_nil in Hsub.
  - pose proof (Get_idx_successor m key Hs Hne) as Hp.
    set (p := at_index (keys m) (Get_idx m key)) in *.
    destruct (Hkeep p) as [Hin Hmap].
    { intros i Hi. apply (Hfree p Hp). apply elem_of_seqZ in Hi. lia. }
    rewrite (Map_Get_successor m key p Hs Hp).
    rewrite (Map_Get_successor m' key p (Hs' Hs)); [by rewrite Hmap|].
    rewrite Hh. destruct Hp as [Hpin Hcases]. split; [by apply Hin|].
    destruct Hcases as [[H1 H2]|[H1 H2]]; [left|right]; split; auto.
Qed.

Lemma StronglySorted_head_min (l : list Z) (p q : Z) :
  StronglySorted Z.le l -> head l = Some p -> q ∈ l -> p <= q.
Proof.
  intros Hs Hp Hq. destruct Hs as [|a l Hs Hall]; simpl in Hp; [done|].
  inversion Hp; subst a.
  apply elem_of_cons in Hq as [->|Hq]; [lia|].
  rewrite Forall_forall in Hall. by apply Hall.
Qed.

(** C6. On every ring built by [New], [Add] and [Remove], [Get] returns the
    sentinel "" when the ring has no position; the owner recorded for the
    smallest position that is at least the hash of the key when there is
    one; and the owner recorded for the first position otherwise.  On the
    ring of the nodes "2", "4", "6" with three replicas and the
    parse-as-integer hash, [Get "23"] is "4", and after [Add "8"] and
    [Remove "8"] every key is mapped as before the [Add]. *)
Theorem ring_get_lookup :
  (forall (r : Z) (fn : option Hash) (ops : list RingOp) (key : string),
     let m := ring_run (New r fn) ops in
     let h := hash m key in
     (keys m = [] -> Map_Get m key = ""%string) /\
     (forall p, p ∈ keys m -> h <= p -> (forall q, q ∈ keys m -> h <= q -> p <= q) ->
        Map_Get m key = default ""%string (hashMap m !! p)) /\
     ((forall q, q ∈ keys m -> q < h) ->
        forall p, head (keys m) = Some p ->
          Map_Get m key = default ""%string (hashMap m !! p))) /\
  Map_Get test_ring "23" = "4"%string /\
  (forall key,
     Map_Get (Map_Remove (Map_Add test_ring ["8"%string]) "8") key = Map_Get test_ring key).
Proof.
  split; [|split].
  - intros r fn ops key m h.
    assert (StronglySorted Z.le (keys m)) as Hs by apply ring_run_sorted, New_sorted.
    split; [apply Map_Get_empty|]. split.
    + intros p Hp Hhp Hmin. apply Map_Get_successor; [done|].
      split; [done|]. left. by split.
    + intros Hall p Hp. apply Map_Get_successor; [done|].
      split; [destruct (keys m); inversion Hp; apply list_elem_of_here|].
      right. split; [done|]. intros q Hq. by apply (StronglySorted_head_min (keys m)).
  - vm_compute. reflexivity.
  - assert (forall m1 m2, hash m1 = hash m2 -> replicas m1 = replicas m2 ->
              keys m1 = keys m2 -> hashMap m1 = hashMap m2 -> m1 = m2) as Heq.
    { intros [] []; simpl; congruence. }
    rewrite (Heq (Map_Remove (Map_Add test_ring ["8"%string]) "8") test_ring);
      [done | reflexivity | reflexivity | vm_compute; reflexivity
      | vm_compute; reflexivity].
Qed.

Lemma ring_get_lookup_witness :
  ("22" ∈ ["2"; "12"; "22"]%string) /\
  Map_Get (ring_run (New 3 (Some atoi_hash)) [OpAdd ["6"; "4"; "2"]%string]) "23"
    = default ""%string
        (hashMap (ring_run (New 3 (Some atoi_hash)) [OpAdd ["6"; "4"; "2"]%string]) !! 24) /\
  Map_Get (ring_run (New 3 (Some atoi_hash)) [OpAdd ["6"; "4"; "2"]%string]) "27"
    = default ""%string
        (hashMap (ring_run (New 3 (Some atoi_hash)) [OpAdd ["6"; "4"; "2"]%string]) !! 2) /\
  Map_Get (ring_run (New 3 (Some atoi_hash)) []) "27" = ""%string.
Proof.
  destruct ring_get_lookup as [Hgen _].
  split; [apply list_elem_of_further, list_elem_of_further, list_elem_of_here|].
  split; [|split].
  - destruct (Hgen 3 (Some atoi_hash) [OpAdd ["6"; "4"; "2"]%string] "23"%string)
      as (_ & H2 & _).
    apply (H2 24).
    + vm_compute. do 7 apply list_elem_of_further. apply list_elem_of_here.
    + vm_compute. discriminate.
    + intros q Hq Hle. vm_compute in Hq, Hle.
      repeat (apply elem_of_cons in Hq as [->|Hq]; [try (exfalso; apply Hle; reflexivity); try discriminate|]).
      by apply elem_of_nil in Hq.
  - destruct (Hgen 3 (Some atoi_hash) [OpAdd ["6"; "4"; "2"]%string] "27"%string)
      as (_ & _ & H3).
    apply H3.
    + intros q Hq. vm_compute in Hq.
      repeat (apply elem_of_cons in Hq as [->|Hq]; [reflexivity|]).
      by apply elem_of_nil in Hq.
    + reflexivity.
  - destruct (Hgen 3 (Some atoi_hash) [] "27"%string) as (H1 & _).
    apply H1. reflexivity.
Defined.

(** ** Rings on which every position has an owner *)

Lemma add_replica_owned (key : string) (m : Map) (i : Z) :
  owned m -> owned (add_replica key m i).
Proof.
  intros Ho p. unfold add_replica. simpl. rewrite elem_of_app, list_elem_of_singleton.
  destruct (decide (hash m (Itoa i ++ key) = p)) as [->|Hne].
  - intros _. rewrite lookup_insert_eq. by eexists.
  - rewrite lookup_insert_ne by done. intros [Hp|Hp]; [by apply Ho | congruence].
Qed.

Lemma add_node_owned (m : Map) (key : string) : owned m -> owned (add_node m key).
Proof.
  unfold add_node. generalize (seqZ 0 (replicas m)). intros idxs. revert m.
  induction idxs as [|i idxs IH]; intros m Ho; simpl; [done|].
  by apply IH, add_replica_owned.
Qed.

Lemma Map_Add_owned (m : Map) (nodes : list string) : owned m -> owned (Map_Add m nodes).
Proof.
  intros Ho.
  assert (owned (foldl add_node m nodes)) as Hf.
  { revert m Ho. induction nodes as [|n nodes IH]; intros m Ho; simpl; [done|].
    by apply IH, add_node_owned. }
  intros p. unfold Map_Add, sort_Ints. simpl.
  rewrite merge_sort_Permutation. apply Hf.
Qed.

Lemma Map_GetAll_elem (m : Map) (node : string) :
  node ∈ Map_GetAll m <-> exists p, hashMap m !! p = Some node.
Proof.
  unfold Map_GetAll. rewrite elem_of_remove_dups, list_elem_of_fmap. split.
  - intros ([p n] & -> & Hin). exists p. by apply elem_of_map_to_list.
  - intros (p & Hp). exists (p, node). split; [done|]. by apply elem_of_map_to_list.
Qed.

(** On a sorted, non-empty ring on which every position has an owner,
    [Get] returns a node of the ring. *)
Lemma Map_Get_owned (m : Map) (key : string) :
  StronglySorted Z.le (keys m) -> keys m ≠ [] -> owned m ->
  Map_Get m key ∈ Map_GetAll m.
Proof.
  intros Hs Hne Ho.
  pose proof (Get_idx_successor m key Hs Hne) as Hp.
  rewrite (Map_Get_successor m key _ Hs Hp).
  destruct Hp as [Hin _]. destruct (Ho _ Hin) as [node Hnode].
  rewrite Hnode. simpl. apply Map_GetAll_elem. by eexists.
Qed.

(** A ring built by [New] and [Add] alone: every position has an owner,
    and [Get] returns a node of the ring for every key. *)
Lemma Map_Get_after_Add (r : Z) (fn : option Hash) (adds : list (list string))
    (key : string) :
  let m := foldl Map_Add (New r fn) adds in
  owned m /\ (keys m ≠ [] -> Map_Get m key ∈ Map_GetAll m).
Proof.
  intros m.
  assert (owned m /\ StronglySorted Z.le (keys m)) as [Ho Hs].
  { subst m. generalize (New_sorted r fn).
    assert (owned (New r fn)) as Ho0.
    { intros p Hp. simpl in Hp. by apply elem_of_nil in Hp. }
    revert Ho0. generalize (New r fn). induction adds as [|a adds IH]; intros m0 Ho Hs;
      simpl; [done|].
    apply IH; [by apply Map_Add_owned | apply Map_Add_sorted]. }
  split; [done|]. intros Hne. by apply Map_Get_owned.
Qed.

(** ** Positions shared by two virtual nodes *)

(** C4, at the input where the code fails it.  After [Add "a" "b"],
    [Add "a"] and [Remove "a"] on a ring with the default hash, the ring
    still has positions and the node "b", and yet [Get "0a"] is the
    sentinel "": a position of "a" is still on the ring and has no owner.
    The same after [Add "2"], [Add "12"], [Remove "12"] with the hash of
    the test. *)
Theorem get_returns_sentinel_on_nonempty_ring :
  (keys twice_added_ring ≠ [] /\
   Map_GetAll twice_added_ring = ["b"%string] /\
   Map_Get twice_added_ring "0a" = ""%string) /\
  (keys (Map_Remove (Map_Add colliding_ring ["12"%string]) "12") = [2; 12; 22] /\
   Map_GetAll (Map_Remove (Map_Add colliding_ring ["12"%string]) "12") = ["2"%string] /\
   Map_Get (Map_Remove (Map_Add colliding_ring ["12"%string]) "12") "5" = ""%string).
Proof.
  split.
  - split; [vm_compute; discriminate|]. split; vm_compute; reflexivity.
  - repeat split; vm_compute; reflexivity.
Qed.

(** C5, at the input where the code fails it.  The node "12" is not on
    the ring of the node "2"; adding it and removing it again does not
    restore the mapping: the keys "5" and "12" were mapped to "2" and are
    mapped to the sentinel afterwards, because [Remove] deletes the owner of
    the position 12, which the node "2" still holds. *)
Theorem add_remove_does_not_restore :
  Map_GetAll colliding_ring = ["2"%string] /\
  Map_Get colliding_ring "12" = "2"%string /\
  Map_Get colliding_ring "5" = "2"%string /\
  Map_Get (Map_Remove (Map_Add colliding_ring ["12"%string]) "12") "12" = ""%string /\
  Map_Get (Map_Remove (Map_Add colliding_ring ["12"%string]) "12") "5" = ""%string.
Proof. repeat split; vm_compute; reflexivity. Qed.

(** * The state machine on both backends *)






(** ** Determinism of [Apply] *)












Example sample_log_result :
  fst (Storage_Get (FSM_run io_ok (Durable empty_disk) sample_log) "b" 5 io_ok)
    = Ok (mkValue [Byte.x32] 0) /\
  fst (Storage_Get (FSM_run io_ok (Durable empty_disk) sample_log) "a" 5 io_ok)
    = Err ErrKeyNotFound.
Proof. split; vm_compute; reflexivity. Qed.

(** ** Snapshot and restore *)

Lemma Storage_Keys_cache (s : Storage) (now : Z) (io : IO) :
  fst (Storage_Keys s now io)
  = MemoryStorage_Keys (cache_of (snd (Storage_Keys s now io))) now.
Proof.
  destruct s as [m|d]; [done|].
  rewrite Storage_Keys_durable. simpl. unfold DiskStorage_Keys.
  by destruct (DiskStorage_loadFromDisk d now io) as [[e|] d'].
Qed.

Lemma Storage_Get_hit (s : Storage) (k : string) (v : Value) (now : Z) (io : IO) :
  cache_of s !! k = Some v -> expired v now = false ->
  Storage_Get s k now io = (Ok v, s).
Proof.
  destruct s as [m|d]; simpl; intros Hk Hv.
  - by rewrite (MemoryStorage_Get_live m k v now Hk Hv).
  - unfold DiskStorage_Get. rewrite (MemoryStorage_Get_live _ k v now Hk Hv).
    by destruct d.
Qed.

Lemma snapshot_fold (now : Z) (io : IO) (s : Storage) (l : list string)
    (acc : gmap string Value) :
  (forall k, k ∈ l -> exists v, cache_of s !! k = Some v /\ expired v now = false) ->
  snd (foldl (snapshot_key now io) (acc, s) l) = s /\
  forall k, fst (foldl (snapshot_key now io) (acc, s) l) !! k
            = if decide (k ∈ l) then cache_of s !! k else acc !! k.
Proof.
  revert acc. induction l as [|k0 l IH]; intros acc Hl; simpl.
  - split; [done|]. intros k. destruct (decide (k ∈ [])) as [H|]; [|done].
    by apply elem_of_nil in H.
  - destruct (Hl k0 (list_elem_of_here k0 l)) as (v0 & Hk0 & Hv0).
    unfold snapshot_key at 2 4. simpl.
    rewrite (Storage_Get_hit s k0 v0 now io Hk0 Hv0). simpl.
    destruct (IH (<[k0 := v0]> acc)) as [IHs IHd].
    { intros k Hk. apply Hl. by apply list_elem_of_further. }
    split; [done|]. intros k. rewrite IHd.
    destruct (decide (k ∈ l)) as [Hin|Hnin].
    + rewrite decide_True; [done | by apply list_elem_of_further].
    + destruct (decide (k = k0)) as [->|Hne].
      * rewrite lookup_insert_eq, decide_True; [done | apply list_elem_of_here].
      * rewrite lookup_insert_ne by done. rewrite decide_False; [done|].
        intros Hin. apply elem_of_cons in Hin as [?|?]; done.
Qed.



Lemma DiskStorage_Get_result (d : DiskStorage) (k : string) (now : Z) (io : IO) :
  fst (DiskStorage_Get d k now io) = get_result (memory d !! k) (files d !! k) now.
Proof.
  unfold DiskStorage_Get, MemoryStorage_Get, get_result, live_value.
  destruct (memory d !! k) as [v|]; [destruct (expired v now); [|done]|]; simpl;
    destruct (files d !! k) as [[| | |v0]|]; try done; by destruct (expired v0 now).
Qed.

Lemma live_visible (s : Storage) (k : string) (now : Z) :
  live s k now <-> is_Some (visible s now k).
Proof.
  destruct s as [m|d]; simpl; unfold live_value, disk_value.
  - destruct (m !! k) as [v|]; [destruct (expired v now) eqn:Hv|].
    + split; [intros (v' & H & Hv'); congruence | intros [? ?]; done].
    + split; [by eexists | intros _; by exists v].
    + split; [intros (v' & H & _); done | intros [? ?]; done].
  - destruct (memory d !! k) as [v|]; [destruct (expired v now) eqn:Hv|].
    + destruct (files d !! k) as [[| | |v0]|];
        try (split; [intros [(v' & H & Hv')|(v' & H & Hv')]; congruence
                    | intros [? ?]; done]).
      destruct (expired v0 now) eqn:Hv0.
      * split; [intros [(v' & H & Hv')|(v' & H & Hv')]; congruence | intros [? ?]; done].
      * split; [by eexists | intros _; right; by exists v0].
    + split; [by eexists | intros _; left; by exists v].
    + destruct (files d !! k) as [[| | |v0]|];
        try (split; [intros [(v' & H & Hv')|(v' & H & Hv')]; congruence
                    | intros [? ?]; done]).
      destruct (expired v0 now) eqn:Hv0.
      * split; [intros [(v' & H & Hv')|(v' & H & Hv')]; congruence | intros [? ?]; done].
      * split; [by eexists | intros _; right; by exists v0].
Qed.

Lemma Storage_Get_visible (s : Storage) (k : string) (v : Value) (now : Z) (io : IO) :
  visible s now k = Some v -> fst (Storage_Get s k now io) = Ok v.
Proof.
  destruct s as [m|d].
  - simpl. unfold MemoryStorage_Get, live_value.
    destruct (m !! k) as [v'|]; [|done]. destruct (expired v' now); [done|].
    by intros [= ->].
  - rewrite Storage_Get_durable, DiskStorage_Get_result. simpl.
    unfold get_result, disk_value.
    destruct (live_value (memory d !! k) now); [by intros [= ->]|].
    destruct (files d !! k) as [[| | |v0]|]; try done.
    destruct (expired v0 now); [done|]. by intros [= ->].
Qed.

Lemma FSM_Snapshot_data (s : Storage) (now : Z) (io : IO) (k : string) :
  fst (FSM_Snapshot s now io) !! k
  = live_value (cache_of (snd (Storage_Keys s now io)) !! k) now.
Proof.
  unfold FSM_Snapshot. pose proof (Storage_Keys_cache s now io) as Hkeys.
  destruct (Storage_Keys s now io) as [l s1]. simpl in *.
  destruct (snapshot_fold now io s1 l ∅) as [_ Hd].
  { intros k' Hk'. rewrite Hkeys in Hk'. by apply MemoryStorage_Keys_elem in Hk'. }
  rewrite Hd, Hkeys. unfold live_value.
  destruct (decide (k ∈ MemoryStorage_Keys (cache_of s1) now)) as [Hin|Hnin].
  - apply MemoryStorage_Keys_elem in Hin as (v & Hk & Hv). by rewrite Hk, Hv.
  - rewrite lookup_empty. destruct (cache_of s1 !! k) as [v|] eqn:Hk; [|done].
    destruct (expired v now) eqn:Hv; [done|].
    destruct Hnin. apply MemoryStorage_Keys_elem. by exists v.
Qed.


Lemma DiskStorage_Set_fault_free (d : DiskStorage) (k : string) (v : Value) (io : IO) :
  (forall n, write_fails io n = false) ->
  snd (DiskStorage_Set d k v io)
  = {| memory := <[k := v]> (memory d);
       files := if dir_at (files d) k then files d else <[k := Stored v]> (files d) |}.
Proof.
  intros Hw. unfold DiskStorage_Set, os_WriteFile, dir_at. simpl. rewrite Hw.
  by destruct (files d !! k) as [[]|].
Qed.



Lemma dir_at_ext (fs fs' : gmap string Entry) (k : string) :
  fs' !! k = fs !! k -> dir_at fs' k = dir_at fs k.
Proof. unfold dir_at. by intros ->. Qed.






Lemma Storage_Keys_visible (s : Storage) (now : Z) (io : IO) (k : string) :
  readdir_fails io = false ->
  k ∈ fst (Storage_Keys s now io) <-> is_Some (visible s now k).
Proof. intros Hio. rewrite (Storage_Keys_elem s now io k Hio). apply live_visible. Qed.




(** ** The invariant of the durable backend *)



Lemma cache_backed_Set (s : Storage) (k : string) (v : Value) (now : Z) (io : IO) :
  (forall n, write_fails io n = false) ->
  cache_backed s now -> cache_backed (snd (Storage_Set s k v io)) now.
Proof.
  intros Hw. destruct s as [m|d]; [done|]. rewrite Storage_Set_durable. simpl snd.
  rewrite DiskStorage_Set_fault_free by done. intros Hb k' v'. simpl.
  destruct (decide (k = k')) as [<-|Hne].
  - rewrite lookup_insert_eq. intros [= <-] Hv. unfold dir_at.
    destruct (files d !! k) as [[]|] eqn:Hk; rewrite ?Hk, ?lookup_insert_eq; auto.
  - rewrite lookup_insert_ne by done. intros Hk' Hv'.
    destruct (dir_at (files d) k); [by apply Hb|].
    rewrite lookup_insert_ne by done. by apply Hb.
Qed.

Lemma cache_backed_Delete (s : Storage) (k : string) (now : Z) (io : IO) :
  cache_backed s now -> cache_backed (snd (Storage_Delete s k io)) now.
Proof.
  destruct s as [m|d]; [done|]. rewrite Storage_Delete_durable. simpl snd.
  intros Hb k' v'. unfold DiskStorage_Delete, os_Remove. simpl.
  destruct (decide (k = k')) as [<-|Hne].
  - destruct (files d !! k); [destruct (remove_fails io k)|]; simpl;
      by rewrite lookup_delete_eq.
  - destruct (files d !! k); [destruct (remove_fails io k)|]; simpl;
      rewrite lookup_delete_ne by done; rewrite ?lookup_delete_ne by done; by apply Hb.
Qed.

Lemma cache_backed_Clear (s : Storage) (now : Z) (io : IO) :
  cache_backed (snd (Storage_Clear s io)) now.
Proof.
  destruct s as [m|d]; [done|]. rewrite Storage_Clear_durable. simpl snd.
  intros k v. unfold DiskStorage_Clear.
  destruct (os_ReadDir io (files d)); [destruct (clear_files _ _ _)|]; simpl;
    by rewrite lookup_empty.
Qed.




(** The state machine keeps the invariant as long as no write fails. *)
Lemma cache_backed_Apply (s : Storage) (log : Log) (now : Z) (io : IO) :
  (forall n, write_fails io n = false) ->
  cache_backed s now -> cache_backed (snd (FSM_Apply s log io)) now.
Proof.
  intros Hw Hb. unfold FSM_Apply. destruct log as [cmd|]; [|done].
  destruct (String.eqb (Op cmd) "set"); [by apply cache_backed_Set|].
  destruct (String.eqb (Op cmd) "delete"); [by apply cache_backed_Delete|].
  destruct (String.eqb (Op cmd) "deleteAll"); [apply cache_backed_Clear | done].
Qed.


(** * Further properties of the storage engines *)

(** ** Writes and the reads that follow *)

Lemma DiskStorage_Set_memory (d : DiskStorage) (k : string) (v : Value) (io : IO) :
  memory (snd (DiskStorage_Set d k v io)) = <[k := v]> (memory d).
Proof.
  unfold DiskStorage_Set, MemoryStorage_Set.
  by destruct (os_WriteFile io (files d) k v).
Qed.



Lemma DiskStorage_Delete_memory (d : DiskStorage) (k : string) (io : IO) :
  memory (snd (DiskStorage_Delete d k io)) = delete k (memory d).
Proof.
  unfold DiskStorage_Delete, MemoryStorage_Delete.
  by destruct (os_Remove io (files d) k) as [[[]|] fs].
Qed.



Lemma Storage_Get_visible_inv (s : Storage) (k : string) (v : Value) (now : Z) (io : IO) :
  fst (Storage_Get s k now io) = Ok v -> visible s now k = Some v.
Proof.
  destruct s as [m|d].
  - simpl. unfold MemoryStorage_Get, live_value.
    destruct (m !! k) as [v'|]; [|done].
    destruct (expired v' now); simpl; congruence.
  - rewrite Storage_Get_durable. cbn [fst]. rewrite DiskStorage_Get_result.
    unfold get_result, visible.
    destruct (live_value (memory d !! k) now) as [v'|]; [congruence|].
    unfold disk_value.
    destruct (files d !! k) as [[| | |v']|]; try done.
    destruct (expired v' now); congruence.
Qed.

Lemma Storage_Has_visible (s : Storage) (k : string) (now : Z) (io : IO) :
  fst (Storage_Has s k now io) = true <-> is_Some (visible s now k).
Proof.
  destruct s as [m|d].
  - simpl. unfold MemoryStorage_Has, live_value.
    destruct (m !! k) as [v|]; [destruct (expired v now)|];
      split; (done || by intros [? ?] || eauto).
  - rewrite Storage_Has_durable. cbn [fst]. unfold DiskStorage_Has, MemoryStorage_Has, visible, live_value, disk_value.
    destruct (memory d !! k) as [v|]; [destruct (expired v now)|]; simpl.
    + destruct (files d !! k) as [[| | |v']|]; simpl;
        try (split; (done || by intros [? ?])).
      destruct (expired v' now); simpl; split; (done || by intros [? ?] || eauto).
    + split; eauto.
    + destruct (files d !! k) as [[| | |v']|]; simpl;
        try (split; (done || by intros [? ?])).
      destruct (expired v' now); simpl; split; (done || by intros [? ?] || eauto).
Qed.

Lemma Storage_Get_after_Set (s : Storage) (k : string) (v : Value) (io io' : IO) (now : Z) :
  expired v now = false ->
  fst (Storage_Get (snd (Storage_Set s k v io)) k now io') = Ok v.
Proof.
  intros Hlive. apply Storage_Get_visible.
  destruct s as [m|d].
  - simpl. rewrite lookup_insert_eq. simpl. by rewrite Hlive.
  - rewrite Storage_Set_durable. cbn [snd visible].
    rewrite DiskStorage_Set_memory, lookup_insert_eq. simpl. by rewrite Hlive.
Qed.

(** X1. After [Set] of a key, on either backend and whether or not the write
    to disk went through, [Get] of the key returns the value that was set,
    [Has] finds the key and [Keys] lists it, for as long as the value has
    not expired. *)
Theorem set_then_get (s : Storage) (k : string) (v : Value) (io io' : IO) (now : Z) :
  expired v now = false ->
  fst (Storage_Get (snd (Storage_Set s k v io)) k now io') = Ok v /\
  fst (Storage_Has (snd (Storage_Set s k v io)) k now io') = true /\
  (readdir_fails io' = false -> k ∈ fst (Storage_Keys (snd (Storage_Set s k v io)) now io')).
Proof.
  intros Hlive.
  pose proof (Storage_Get_after_Set s k v io io' now Hlive) as Hget.
  split; [done|].
  apply Storage_Get_visible_inv in Hget.
  assert (is_Some (visible (snd (Storage_Set s k v io)) now k)) as Hvis by eauto.
  split; [by apply Storage_Has_visible|].
  intros Hrd. by apply Storage_Keys_visible.
Qed.

Lemma set_then_get_witness :
  expired (mkValue [Byte.x61] 30) 20 = false /\
  fst (Storage_Get (snd (Storage_Set mixed_disk "sub" (mkValue [Byte.x61] 30) failing_write))
         "sub" 20 io_ok) = Ok (mkValue [Byte.x61] 30).
Proof.
  split; [reflexivity|].
  apply (set_then_get mixed_disk "sub" (mkValue [Byte.x61] 30) failing_write io_ok 20).
  reflexivity.
Defined.





Lemma Storage_Delete_absent (s : Storage) (k : string) (io : IO) :
  remove_fails io k = false -> absent (snd (Storage_Delete s k io)) k.
Proof.
  intros Hrm. destruct s as [m|d].
  - apply lookup_delete_eq.
  - rewrite Storage_Delete_durable. cbn [snd absent].
    rewrite DiskStorage_Delete_memory, lookup_delete_eq. split; [done|].
    unfold DiskStorage_Delete, os_Remove.
    destruct (files d !! k) eqn:E; [rewrite Hrm|]; simpl; [apply lookup_delete_eq|done].
Qed.

(** X3. When the removal of the file does not fail, [Delete] returns no
    error and the key is gone: [Get] returns ErrKeyNotFound, [Has] is
    false and [Keys] does not list the key. *)
Theorem delete_then_get (s : Storage) (k : string) (io io' : IO) (now : Z) :
  remove_fails io k = false ->
  fst (Storage_Delete s k io) = None /\
  fst (Storage_Get (snd (Storage_Delete s k io)) k now io') = Err ErrKeyNotFound /\
  fst (Storage_Has (snd (Storage_Delete s k io)) k now io') = false /\
  (readdir_fails io' = false -> k ∉ fst (Storage_Keys (snd (Storage_Delete s k io)) now io')).
Proof.
  intros Hrm.
  pose proof (Storage_Delete_absent s k io Hrm) as Habs.
  assert (Hvis : forall now, visible (snd (Storage_Delete s k io)) now k = None).
  { intros t. destruct (snd (Storage_Delete s k io)) as [m|d]; simpl in *.
    - by rewrite Habs.
    - destruct Habs as [-> ->]. done. }
  split; [|split; [|split]].
  - destruct s as [m|d]; [done|].
    rewrite Storage_Delete_durable. cbn [fst].
    unfold DiskStorage_Delete, os_Remove.
    destruct (files d !! k); [rewrite Hrm|]; done.
  - by apply Storage_Get_absent.
  - destruct (fst (Storage_Has (snd (Storage_Delete s k io)) k now io')) eqn:E; [|done].
    apply Storage_Has_visible in E. rewrite Hvis in E. by destruct E.
  - intros Hrd Hin. apply Storage_Keys_visible in Hin; [|done].
    rewrite Hvis in Hin. by destruct Hin.
Qed.

Lemma delete_then_get_witness :
  remove_fails io_ok "a" = false /\
  fst (Storage_Get mixed_disk "a" 20 io_ok) = Ok (mkValue [Byte.x31] 0) /\
  fst (Storage_Get (snd (Storage_Delete mixed_disk "a" io_ok)) "a" 20 io_ok)
    = Err ErrKeyNotFound.
Proof.
  split; [reflexivity|]. split; [reflexivity|].
  apply (delete_then_get mixed_disk "a" io_ok io_ok 20). reflexivity.
Defined.





(** ** Clear *)



(** ** Restart of the durable backend *)






(** * Further properties of the state machine *)








(** * Further properties of the ring *)

(** ** The invariant of the ring *)

Lemma add_fold_spec (key : string) (idxs : list Z) (m : Map) :
  let hs := (fun i => hash m (Itoa i ++ key)) <$> idxs in
  let m' := foldl (add_replica key) m idxs in
  hash m' = hash m /\
  replicas m' = replicas m /\
  keys m' = keys m ++ hs /\
  forall p, hashMap m' !! p = if decide (p ∈ hs) then Some key else hashMap m !! p.
Proof.
  revert m. induction idxs as [|i idxs IH]; intros m; cbn zeta.
  - simpl. rewrite app_nil_r. split; [done|]. split; [done|]. split; [done|]. intros p.
    destruct (decide (p ∈ [])) as [H|_]; [by apply elem_of_nil in H | done].
  - rewrite fmap_cons. cbn [foldl].
    destruct (IH (add_replica key m i)) as (Hh & Hr & Hk & Hm).
    change (hash (add_replica key m i)) with (hash m) in *.
    split; [done|]. split; [done|]. split.
    + rewrite Hk. simpl. by rewrite <- app_assoc.
    + intros p. rewrite Hm. simpl.
      set (h := hash m (Itoa i ++ key)).
      set (hs := (fun i0 => hash m (Itoa i0 ++ key)) <$> idxs).
      destruct (decide (p ∈ hs)) as [Hin|Hnin].
      * destruct (decide (p ∈ h :: hs)) as [_|Hn]; [done|].
        exfalso. apply Hn. by apply list_elem_of_further.
      * destruct (decide (p = h)) as [->|Hne].
        -- rewrite lookup_insert_eq.
           destruct (decide (h ∈ h :: hs)) as [_|Hn]; [done|].
           exfalso. apply Hn. apply list_elem_of_here.
        -- rewrite lookup_insert_ne by done.
           destruct (decide (p ∈ h :: hs)) as [Hin|_]; [|done].
           apply elem_of_cons in Hin as [?|?]; done.
Qed.

Lemma add_node_spec (m : Map) (node : string) :
  hash (add_node m node) = hash m /\
  replicas (add_node m node) = replicas m /\
  keys (add_node m node) = keys m ++ positions m node /\
  forall p, hashMap (add_node m node) !! p
            = if decide (p ∈ positions m node) then Some node else hashMap m !! p.
Proof. apply add_fold_spec. Qed.

Lemma positions_ext (m m' : Map) (node : string) :
  hash m' = hash m -> replicas m' = replicas m -> positions m' node = positions m node.
Proof. unfold positions. by intros -> ->. Qed.

Lemma add_node_placed (m : Map) (node : string) : placed m -> placed (add_node m node).
Proof.
  intros Hp p n. destruct (add_node_spec m node) as (Hh & Hr & Hk & Hm).
  rewrite Hm, Hk, (positions_ext m _ n Hh Hr), elem_of_app.
  destruct (decide (p ∈ positions m node)) as [Hin|_].
  - intros [= <-]. split; [by right | done].
  - intros Hn. destruct (Hp p n Hn). split; [by left | done].
Qed.

Lemma add_nodes_spec (m : Map) (nodes : list string) :
  hash (foldl add_node m nodes) = hash m /\
  replicas (foldl add_node m nodes) = replicas m /\
  (placed m -> placed (foldl add_node m nodes)).
Proof.
  revert m. induction nodes as [|n nodes IH]; intros m; simpl; [done|].
  destruct (IH (add_node m n)) as (Hh & Hr & Hp).
  destruct (add_node_spec m n) as (Hh1 & Hr1 & _).
  split; [congruence|]. split; [congruence|]. intros H. by apply Hp, add_node_placed.
Qed.

Lemma Map_Add_spec (m : Map) (nodes : list string) :
  hash (Map_Add m nodes) = hash m /\
  replicas (Map_Add m nodes) = replicas m /\
  (placed m -> placed (Map_Add m nodes)).
Proof.
  destruct (add_nodes_spec m nodes) as (Hh & Hr & Hp).
  unfold Map_Add. simpl. split; [done|]. split; [done|].
  intros H p n Hn. destruct (Hp H p n Hn) as [Hin Hpos]. simpl in Hn.
  split.
  - simpl. unfold sort_Ints. by rewrite merge_sort_Permutation.
  - by rewrite (positions_ext (foldl add_node m nodes)).
Qed.

Lemma index_of_None (h : Z) (l : list Z) : index_of h l = None -> h ∉ l.
Proof.
  induction l as [|a l IH]; simpl; [intros _; apply not_elem_of_nil|].
  destruct (decide (a = h)) as [->|Hne]; [done|].
  destruct (index_of h l); [done|]. intros _ Hin.
  apply elem_of_cons in Hin as [?|?]; [done | by apply IH].
Qed.

Lemma index_of_Some (h : Z) (l : list Z) : h ∈ l -> is_Some (index_of h l).
Proof.
  intros Hin. destruct (index_of h l) eqn:E; [by eexists|].
  by apply index_of_None in E.
Qed.

Lemma index_of_Permutation (h : Z) (l : list Z) (idx : nat) :
  index_of h l = Some idx -> l ≡ₚ h :: (take idx l ++ drop (S idx) l).
Proof.
  revert idx. induction l as [|a l IH]; intros idx; simpl; [done|].
  destruct (decide (a = h)) as [->|Hne].
  - intros [= <-]. simpl. by rewrite drop_0.
  - destruct (index_of h l) as [i|]; [|done]. intros [= <-]. simpl.
    rewrite (IH i eq_refl) at 1. apply perm_swap.
Qed.

(** One turn of the loop of [Remove] keeps the invariant, takes no owner
    in, and leaves no owner on the position it looks for. *)
Lemma remove_replica_placed (node : string) (m : Map) (i : Z) :
  placed m ->
  placed (remove_replica node m i) /\
  (forall p n, hashMap (remove_replica node m i) !! p = Some n -> hashMap m !! p = Some n) /\
  hashMap (remove_replica node m i) !! hash m (Itoa i ++ node) = None.
Proof.
  intros Hp. unfold remove_replica.
  destruct (index_of (hash m (Itoa i ++ node)) (keys m)) as [idx|] eqn:Hidx.
  - split; [|split].
    + intros p n. simpl. intros Hn.
      apply lookup_delete_Some in Hn as [Hne Hn].
      destruct (Hp p n Hn) as [Hin Hpos]. split; [|done].
      apply (index_of_remove_elem _ _ _ p Hidx); [congruence | done].
    + intros p n. simpl. intros Hn. by apply lookup_delete_Some in Hn as [_ Hn].
    + simpl. apply lookup_delete_eq.
  - split; [done|]. split; [done|].
    apply index_of_None in Hidx.
    destruct (hashMap m !! hash m (Itoa i ++ node)) as [n|] eqn:Hn; [|done].
    by destruct (Hp _ n Hn).
Qed.

Lemma remove_fold_placed (node : string) (idxs : list Z) (m : Map) :
  placed m ->
  let m' := foldl (remove_replica node) m idxs in
  placed m' /\
  (forall p n, hashMap m' !! p = Some n -> hashMap m !! p = Some n) /\
  forall i, i ∈ idxs -> hashMap m' !! hash m (Itoa i ++ node) = None.
Proof.
  revert m. induction idxs as [|i idxs IH]; intros m Hp; cbn zeta.
  - split; [done|]. split; [done|]. intros i Hi. by apply elem_of_nil in Hi.
  - cbn [foldl].
    destruct (remove_replica_placed node m i Hp) as (Hp1 & Hsub1 & Hgone1).
    destruct (remove_replica_spec node m i) as (Hh1 & _).
    destruct (IH _ Hp1) as (Hp' & Hsub & Hgone). rewrite Hh1 in Hgone.
    split; [done|]. split; [by auto|].
    intros j Hj. apply elem_of_cons in Hj as [->|Hj]; [|by apply Hgone].
    destruct (hashMap (foldl (remove_replica node) (remove_replica node m i) idxs)
                !! hash m (Itoa i ++ node)) as [n|] eqn:Hn; [|done].
    apply Hsub in Hn. congruence.
Qed.

Lemma Map_Remove_placed (m : Map) (node : string) :
  placed m -> placed (Map_Remove m node).
Proof. intros Hp. by destruct (remove_fold_placed node (seqZ 0 (replicas m)) m Hp). Qed.

Lemma New_placed (r : Z) (fn : option Hash) : placed (New r fn).
Proof. intros p n. simpl. by rewrite lookup_empty. Qed.

Lemma ring_step_spec (m : Map) (op : RingOp) :
  hash (ring_step m op) = hash m /\ replicas (ring_step m op) = replicas m /\
  (placed m -> placed (ring_step m op)).
Proof.
  destruct op as [nodes|node]; simpl.
  - apply Map_Add_spec.
  - destruct (remove_fold_spec node (seqZ 0 (replicas m)) m) as (Hh & Hr & _).
    split; [done|]. split; [done|]. apply Map_Remove_placed.
Qed.

Lemma ring_run_spec (m : Map) (ops : list RingOp) :
  hash (ring_run m ops) = hash m /\ replicas (ring_run m ops) = replicas m /\
  (placed m -> placed (ring_run m ops)).
Proof.
  unfold ring_run. revert m. induction ops as [|op ops IH]; intros m; simpl; [done|].
  destruct (IH (ring_step m op)) as (Hh & Hr & Hp).
  destruct (ring_step_spec m op) as (Hh1 & Hr1 & Hp1).
  split; [congruence|]. split; [congruence|]. auto.
Qed.

(** X12. On every ring built by [New], [Add] and [Remove] the positions are
    sorted, the number of replicas and the hash are those given to [New],
    and every entry of the owner map sits on a position of the ring that
    is the hash of one of the replicas of its owner. *)
Theorem ring_invariant (r : Z) (fn : option Hash) (ops : list RingOp) :
  let m := ring_run (New r fn) ops in
  StronglySorted Z.le (keys m) /\
  replicas m = r /\
  hash m = hash (New r fn) /\
  forall p node, hashMap m !! p = Some node ->
    p ∈ keys m /\ exists i, 0 <= i < r /\ p = hash m (Itoa i ++ node).
Proof.
  intros m. destruct (ring_run_spec (New r fn) ops) as (Hh & Hr & Hp).
  split; [apply ring_run_sorted, New_sorted|]. split; [done|]. split; [done|].
  intros p node Hn. destruct (Hp (New_placed r fn) p node Hn) as [Hin Hpos].
  split; [done|]. unfold positions in Hpos.
  apply list_elem_of_fmap in Hpos as (i & -> & Hi). apply elem_of_seqZ in Hi.
  exists i. subst m. rewrite Hr in Hi. simpl in Hi. split; [lia | done].
Qed.

(** ** Removed nodes *)

Lemma Map_Remove_gone (m : Map) (node : string) (p : Z) :
  placed m -> hashMap (Map_Remove m node) !! p ≠ Some node.
Proof.
  intros Hp Hn. unfold Map_Remove in Hn.
  destruct (remove_fold_placed node (seqZ 0 (replicas m)) m Hp) as (_ & Hsub & Hgone).
  pose proof (Hsub p node Hn) as Hm. destruct (Hp p node Hm) as [_ Hpos].
  unfold positions in Hpos. apply list_elem_of_fmap in Hpos as (i & -> & Hi).
  rewrite (Hgone i Hi) in Hn. done.
Qed.

(** X13. After [Remove] of a node, on every ring built by [New], [Add] and
    [Remove], [GetAll] does not list the node and [Get] returns it for no
    key (a node named by the empty string apart, which is also what [Get]
    returns for want of an owner). *)
Theorem removed_node_serves_no_key (r : Z) (fn : option Hash) (ops : list RingOp)
    (node : string) :
  let m := Map_Remove (ring_run (New r fn) ops) node in
  (node ∉ Map_GetAll m) /\
  (node ≠ ""%string -> forall key, Map_Get m key ≠ node).
Proof.
  intros m.
  assert (Hgone : forall p, hashMap m !! p ≠ Some node).
  { intros p. apply Map_Remove_gone.
    destruct (ring_run_spec (New r fn) ops) as (_ & _ & Hp). apply Hp, New_placed. }
  split.
  - intros Hin. apply Map_GetAll_elem in Hin as [p Hp]. by apply (Hgone p).
  - intros Hne key Hget. unfold Map_Get in Hget.
    destruct (decide (length (keys m) = 0%nat)) as [|_]; [congruence|].
    destruct (hashMap m !! at_index (keys m) (Get_idx m key)) as [owner|] eqn:Hn;
      simpl in Hget; [|congruence].
    subst owner. by apply (Hgone _ Hn).
Qed.

(** ** Adding a node and removing it again *)

Lemma remove_fold_perm (node : string) (idxs : list Z) (m : Map) (K : list Z) :
  let hs := (fun i => hash m (Itoa i ++ node)) <$> idxs in
  let m' := foldl (remove_replica node) m idxs in
  keys m ≡ₚ hs ++ K ->
  keys m' ≡ₚ K /\
  forall p, hashMap m' !! p = if decide (p ∈ hs) then None else hashMap m !! p.
Proof.
  revert m. induction idxs as [|i idxs IH]; intros m; cbn zeta.
  - simpl. intros HK. split; [done|]. intros p.
    destruct (decide (p ∈ [])) as [H|_]; [by apply elem_of_nil in H | done].
  - rewrite fmap_cons. cbn [foldl]. intros HK.
    set (h := hash m (Itoa i ++ node)) in *.
    set (hs := (fun i0 => hash m (Itoa i0 ++ node)) <$> idxs) in *.
    assert (h ∈ keys m) as Hin.
    { rewrite HK. simpl. apply list_elem_of_here. }
    destruct (index_of_Some h (keys m) Hin) as [idx Hidx].
    assert (Hm1 : remove_replica node m i
                  = {| hash := hash m; replicas := replicas m;
                       keys := take idx (keys m) ++ drop (S idx) (keys m);
                       hashMap := delete h (hashMap m) |}).
    { unfold remove_replica. fold h. by rewrite Hidx. }
    destruct (IH (remove_replica node m i)) as (Hk & Hm).
    { rewrite Hm1. simpl. fold hs.
      apply (Permutation_cons_inv (a := h)).
      rewrite <- (index_of_Permutation h (keys m) idx Hidx). exact HK. }
    split; [done|]. intros p. rewrite Hm. rewrite Hm1. simpl. fold hs.
    destruct (decide (p ∈ hs)) as [Hp|Hp].
    + destruct (decide (p ∈ h :: hs)) as [_|Hn]; [done|].
      exfalso. apply Hn. by apply list_elem_of_further.
    + destruct (decide (p = h)) as [->|Hne].
      * rewrite lookup_delete_eq.
        destruct (decide (h ∈ h :: hs)) as [_|Hn]; [done|].
        exfalso. apply Hn. apply list_elem_of_here.
      * rewrite lookup_delete_ne by done.
        destruct (decide (p ∈ h :: hs)) as [Hin'|_]; [|done].
        apply elem_of_cons in Hin' as [?|?]; done.
Qed.

Lemma Map_eq (m m' : Map) :
  hash m = hash m' -> replicas m = replicas m' -> keys m = keys m' ->
  hashMap m = hashMap m' -> m = m'.
Proof. destruct m, m'. simpl. by intros -> -> -> ->. Qed.

(** X14. On a sorted ring on which no position of a node has an owner,
    [Add] of the node followed by [Remove] of it gives the ring back:
    the positions and the owners are as before. *)
Theorem add_then_remove_restores (m : Map) (node : string) :
  StronglySorted Z.le (keys m) ->
  (forall i, 0 <= i < replicas m -> hashMap m !! hash m (Itoa i ++ node) = None) ->
  Map_Remove (Map_Add m [node]) node = m.
Proof.
  intros Hs Hfree.
  destruct (add_node_spec m node) as (Hh & Hr & Hk & Hm).
  set (m1 := Map_Add m [node]).
  assert (Hh1 : hash m1 = hash m) by done.
  assert (Hr1 : replicas m1 = replicas m) by done.
  assert (Hk1 : keys m1 ≡ₚ positions m node ++ keys m).
  { subst m1. unfold Map_Add, sort_Ints. simpl.
    rewrite merge_sort_Permutation, Hk. apply Permutation_app_comm. }
  assert (Hm1 : forall p, hashMap m1 !! p
                          = if decide (p ∈ positions m node) then Some node
                            else hashMap m !! p) by exact Hm.
  unfold Map_Remove. rewrite Hr1.
  destruct (remove_fold_spec node (seqZ 0 (replicas m)) m1) as (Hh2 & Hr2 & Hs2 & _).
  destruct (remove_fold_perm node (seqZ 0 (replicas m)) m1 (keys m)) as (Hk2 & Hm2).
  { cbn zeta. rewrite Hh1. exact Hk1. }
  cbn zeta in Hm2. rewrite Hh1 in Hm2. fold (positions m node) in Hm2.
  apply Map_eq.
  - congruence.
  - congruence.
  - apply (StronglySorted_unique Z.le); [|done|done].
    apply Hs2. apply Map_Add_sorted.
  - apply map_eq. intros p. rewrite Hm2.
    destruct (decide (p ∈ positions m node)) as [Hin|Hnin]; [|by rewrite Hm1, decide_False].
    unfold positions in Hin. apply list_elem_of_fmap in Hin as (i & -> & Hi).
    apply elem_of_seqZ in Hi. symmetry. apply Hfree. lia.
Qed.

Lemma add_then_remove_restores_witness :
  StronglySorted Z.le (keys test_ring) /\
  Map_Remove (Map_Add test_ring ["8"%string]) "8" = test_ring.
Proof.
  assert (Hs : StronglySorted Z.le (keys test_ring)) by apply Map_Add_sorted.
  split; [exact Hs|]. apply (add_then_remove_restores test_ring "8" Hs).
  intros i Hi. change (replicas test_ring) with 3 in Hi.
  assert (i = 0 \/ i = 1 \/ i = 2) as [-> | [-> | ->]] by lia; vm_compute; reflexivity.
Defined.

(** X15. [Remove] of a node none of whose positions is on the ring leaves
    the ring as it was. *)
Theorem remove_of_unplaced_node (m : Map) (node : string) :
  (forall i, 0 <= i < replicas m -> hash m (Itoa i ++ node) ∉ keys m) ->
  Map_Remove m node = m.
Proof.
  intros Hfree. unfold Map_Remove.
  assert (forall idxs, (forall i, i ∈ idxs -> hash m (Itoa i ++ node) ∉ keys m) ->
                       foldl (remove_replica node) m idxs = m) as H.
  { induction idxs as [|i idxs IH]; intros Hi; simpl; [done|].
    assert (remove_replica node m i = m) as ->.
    { unfold remove_replica.
      destruct (index_of (hash m (Itoa i ++ node)) (keys m)) as [idx|] eqn:Hidx; [|done].
      exfalso. apply (Hi i (list_elem_of_here _ _)).
      rewrite (index_of_Permutation _ _ _ Hidx). apply list_elem_of_here. }
    apply IH. intros j Hj. apply Hi. by apply list_elem_of_further. }
  apply H. intros i Hi. apply Hfree. apply elem_of_seqZ in Hi. lia.
Qed.

Lemma remove_of_unplaced_node_witness :
  (hash test_ring (Itoa 0 ++ "8") ∉ keys test_ring) /\
  Map_Remove test_ring "8" = test_ring.
Proof.
  split; [apply (bool_decide_unpack _); vm_compute; exact I|].
  apply (remove_of_unplaced_node test_ring "8"). intros i Hi.
  change (replicas test_ring) with 3 in Hi.
  assert (i = 0 \/ i = 1 \/ i = 2) as [-> | [-> | ->]] by lia;
    apply (bool_decide_unpack _); vm_compute; exact I.
Defined.

(** ** Keys that stay *)

(** X16. [Remove] of a node moves no key but those served by a position of
    the node: a key whose position on the ring is not the hash of a
    replica of the node is mapped as before. *)
Theorem remove_keeps_other_keys (r : Z) (fn : option Hash) (ops : list RingOp)
    (node key : string) :
  let m := ring_run (New r fn) ops in
  (forall p, ring_successor (keys m) (hash m key) p ->
     forall i, 0 <= i < r -> hash m (Itoa i ++ node) ≠ p) ->
  Map_Get (Map_Remove m node) key = Map_Get m key.
Proof.
  intros m Hfree. apply Map_Remove_unaffected.
  - apply ring_run_sorted, New_sorted.
  - intros p Hp i Hi. apply (Hfree p Hp).
    destruct (ring_run_spec (New r fn) ops) as (_ & Hr & _).
    subst m. rewrite Hr in Hi. exact Hi.
Qed.

Lemma remove_keeps_other_keys_witness :
  Map_Get (Map_Remove (ring_run (New 3 (Some atoi_hash))
                         [OpAdd ["6"; "4"; "2"]%string; OpAdd ["8"%string]]) "8") "23"
  = "4"%string.
Proof.
  rewrite (remove_keeps_other_keys 3 (Some atoi_hash)
             [OpAdd ["6"; "4"; "2"]%string; OpAdd ["8"%string]] "8" "23");
    [vm_compute; reflexivity|].
  intros p [Hin Hcases] i Hi Heq. subst p.
  assert (24 ∈ keys (ring_run (New 3 (Some atoi_hash))
                       [OpAdd ["6"; "4"; "2"]%string; OpAdd ["8"%string]])) as H24
    by (apply (bool_decide_unpack _); vm_compute; exact I).
  destruct Hcases as [[Hle Hmin]|[Hall _]].
  - specialize (Hmin 24 H24).
    assert (i = 0 \/ i = 1 \/ i = 2) as [-> | [-> | ->]] by lia;
      vm_compute in Hle, Hmin; [by apply Hle | by apply Hle | by apply Hmin].
  - specialize (Hall 24 H24). vm_compute in Hall. discriminate.
Defined.

(** ** Owners *)

Lemma remove_fold_sub (node : string) (idxs : list Z) (m : Map) (p : Z) (n : string) :
  hashMap (foldl (remove_replica node) m idxs) !! p = Some n -> hashMap m !! p = Some n.
Proof.
  revert m. induction idxs as [|i idxs IH]; intros m; simpl; [done|].
  intros Hn. apply IH in Hn. unfold remove_replica in Hn.
  destruct (index_of (hash m (Itoa i ++ node)) (keys m)); [|done].
  simpl in Hn. by apply lookup_delete_Some in Hn as [_ Hn].
Qed.

Lemma add_nodes_owner (m : Map) (nodes : list string) (p : Z) (n : string) :
  hashMap (foldl add_node m nodes) !! p = Some n -> n ∈ nodes \/ hashMap m !! p = Some n.
Proof.
  revert m. induction nodes as [|a nodes IH]; intros m; simpl; [by right|].
  intros Hn. destruct (IH _ Hn) as [Hin|Hm].
  - left. by apply list_elem_of_further.
  - destruct (add_node_spec m a) as (_ & _ & _ & Ha). rewrite Ha in Hm.
    destruct (decide (p ∈ positions m a)); [|by right].
    injection Hm as <-. left. apply list_elem_of_here.
Qed.

Lemma added_nodes_cons (op : RingOp) (ops : list RingOp) :
  added_nodes (op :: ops)
  = match op with OpAdd nodes => nodes | OpRemove _ => [] end ++ added_nodes ops.
Proof. done. Qed.

Lemma ring_step_owner (m : Map) (op : RingOp) (p : Z) (n : string) :
  hashMap (ring_step m op) !! p = Some n -> n ∈ added_nodes [op] \/ hashMap m !! p = Some n.
Proof.
  rewrite added_nodes_cons. destruct op as [nodes|node]; cbn [ring_step].
  - unfold Map_Add. cbn [hashMap]. intros Hn. rewrite app_nil_r. by apply add_nodes_owner.
  - intros Hn. right. by apply remove_fold_sub in Hn.
Qed.

Lemma ring_run_owner (m : Map) (ops : list RingOp) (p : Z) (n : string) :
  hashMap (ring_run m ops) !! p = Some n -> n ∈ added_nodes ops \/ hashMap m !! p = Some n.
Proof.
  unfold ring_run. revert m. induction ops as [|op ops IH]; intros m; [by right|].
  cbn [foldl]. intros Hn. rewrite added_nodes_cons, elem_of_app.
  destruct (IH _ Hn) as [Hin|Hm]; [by left; right|].
  destruct (ring_step_owner m op p n Hm) as [Hin|Hm']; [|by right].
  left; left. rewrite added_nodes_cons in Hin. by rewrite app_nil_r in Hin.
Qed.

(** X17. On every ring built by [New], [Add] and [Remove], [GetAll] lists
    only nodes that were added, and [Get] returns a node that was added or
    the empty string. *)
Theorem get_returns_added_node (r : Z) (fn : option Hash) (ops : list RingOp)
    (key : string) :
  let m := ring_run (New r fn) ops in
  (forall node, node ∈ Map_GetAll m -> node ∈ added_nodes ops) /\
  (Map_Get m key = ""%string \/ Map_Get m key ∈ added_nodes ops).
Proof.
  intros m.
  assert (Hown : forall p n, hashMap m !! p = Some n -> n ∈ added_nodes ops).
  { intros p n Hn. destruct (ring_run_owner (New r fn) ops p n Hn) as [H|H]; [done|].
    simpl in H. by rewrite lookup_empty in H. }
  split.
  - intros node Hin. apply Map_GetAll_elem in Hin as [p Hp]. by apply (Hown p).
  - unfold Map_Get. destruct (decide (length (keys m) = 0%nat)) as [|_]; [by left|].
    destruct (hashMap m !! at_index (keys m) (Get_idx m key)) as [owner|] eqn:Hn;
      simpl; [right | by left].
    by apply (Hown _ _ Hn).
Qed.

Lemma add_nodes_keys (m : Map) (nodes : list string) (p : Z) :
  p ∈ keys m \/ (exists n, n ∈ nodes /\ p ∈ positions m n) ->
  p ∈ keys (foldl add_node m nodes).
Proof.
  revert m. induction nodes as [|a nodes IH]; intros m; simpl.
  - intros [H|(n & Hn & _)]; [done | by apply elem_of_nil in Hn].
  - destruct (add_node_spec m a) as (Hh & Hr & Hk & _).
    intros H. apply IH. rewrite Hk, elem_of_app.
    destruct H as [H|(n & Hn & Hp)]; [by left; left|].
    apply elem_of_cons in Hn as [->|Hn]; [by left; right|].
    right. exists n. split; [done|]. by rewrite (positions_ext m).
Qed.

(** X18. With at least one replica per node, a ring built by [New] and
    [Add] alone has a position once a node has been added, and [Get] maps
    every key to a node that [GetAll] lists. *)
Theorem add_only_ring_serves_every_key (r : Z) (fn : option Hash)
    (adds : list (list string)) (key : string) :
  0 < r -> (exists nodes, nodes ∈ adds /\ nodes ≠ []) ->
  let m := foldl Map_Add (New r fn) adds in
  keys m ≠ [] /\ Map_Get m key ∈ Map_GetAll m.
Proof.
  intros Hr Hadds m.
  assert (Hinv : forall m0, (replicas m0 = r /\
                             (keys m0 ≠ [] \/ exists nodes, nodes ∈ adds /\ nodes ≠ [])) ->
                            keys (foldl Map_Add m0 adds) ≠ []).
  { clear Hadds m. induction adds as [|a adds IH]; intros m0 [Hr0 Hne]; simpl.
    - destruct Hne as [H|(nodes & Hin & _)]; [done | by apply elem_of_nil in Hin].
    - apply IH. destruct (Map_Add_spec m0 a) as (_ & Hr1 & _).
      split; [congruence|].
      assert (keys m0 ≠ [] \/ a ≠ [] \/ exists nodes, nodes ∈ adds /\ nodes ≠ [])
        as [H|[H|H]].
      { destruct Hne as [H|(nodes & Hin & Hn)]; [by left|].
        apply elem_of_cons in Hin as [->|Hin]; [by right; left|]. right; right. eauto. }
      + left. destruct (keys m0) as [|p l] eqn:Hk; [done|].
        assert (p ∈ keys (Map_Add m0 a)) as Hp.
        { unfold Map_Add, sort_Ints. cbn [keys]. rewrite merge_sort_Permutation.
          apply add_nodes_keys. left. rewrite Hk. apply list_elem_of_here. }
        intros Hnil. rewrite Hnil in Hp. by apply elem_of_nil in Hp.
      + left. destruct a as [|n a]; [done|].
        assert (hash m0 (Itoa 0 ++ n) ∈ keys (Map_Add m0 (n :: a))) as Hp.
        { unfold Map_Add, sort_Ints. cbn [keys]. rewrite merge_sort_Permutation.
          apply add_nodes_keys. right. exists n. split; [apply list_elem_of_here|].
          unfold positions. apply list_elem_of_fmap. exists 0. split; [done|].
          apply elem_of_seqZ. lia. }
        intros Hnil. rewrite Hnil in Hp. by apply elem_of_nil in Hp.
      + by right. }
  assert (Hne : keys m ≠ []).
  { apply Hinv. split; [done | by right]. }
  split; [done|].
  by apply (Map_Get_after_Add r fn adds key).
Qed.

Lemma add_only_ring_serves_every_key_witness :
  0 < 3 /\
  Map_Get (foldl Map_Add (New 3 (Some atoi_hash)) [["6"; "4"; "2"]%string]) "23"
    ∈ Map_GetAll (foldl Map_Add (New 3 (Some atoi_hash)) [["6"; "4"; "2"]%string]).
Proof.
  split; [lia|].
  apply (add_only_ring_serves_every_key 3 (Some atoi_hash) [["6"; "4"; "2"]%string] "23").
  - lia.
  - exists ["6"; "4"; "2"]%string. split; [apply list_elem_of_here | done].
Defined.

(** * Properties of the node and of the API *)

(** ** Waiting for a leader *)

Lemma paced_lower (prev : Z) (obs : list (Z * string)) (now : Z) (leader : string) :
  paced prev obs -> (now, leader) ∈ obs -> prev <= now.
Proof.
  revert prev. induction obs as [|[t l] rest IH]; intros prev Hp Hin.
  - by apply elem_of_nil in Hin.
  - destruct Hp as [Hle Hp]. apply elem_of_cons in Hin as [[= -> ->]|Hin]; [done|].
    specialize (IH _ Hp Hin). unfold leaderWaitDelay, Millisecond in IH. lia.
Qed.

Lemma wait_loop_bounded (timeout : Z) (n : nat) :
  forall prev obs,
    paced prev obs -> timeout <= prev + Z.of_nat n * leaderWaitDelay ->
    (n < length obs)%nat ->
    (leader_seen timeout obs /\ wait_loop timeout obs = Some None) \/
    (~ leader_seen timeout obs /\ wait_loop timeout obs = Some (Some ErrTimeout)).
Proof.
  assert (Hlate : forall prev obs, paced prev obs -> timeout <= prev ->
                                   ~ leader_seen timeout obs).
  { intros prev obs Hp Hle (t & l & Hin & Hlt & _).
    pose proof (paced_lower prev obs t l Hp Hin). lia. }
  induction n as [|n IH]; intros prev obs Hp Hle Hlen.
  - destruct obs as [|[t l] rest]; [simpl in Hlen; lia|].
    right. split; [apply (Hlate prev); [done|lia]|].
    destruct Hp as [Hpt _]. simpl.
    destruct (Z.ltb_spec t timeout); [lia|done].
  - destruct obs as [|[t l] rest]; [simpl in Hlen; lia|].
    destruct Hp as [Hpt Hp]. simpl.
    destruct (Z.ltb_spec t timeout) as [Hlt|Hge].
    + destruct (decide (l ≠ ""%string)) as [Hl|Hl].
      * left. split; [|done]. exists t, l. split; [apply list_elem_of_here|done].
      * assert (l = ""%string) as -> by (by destruct (decide (l = ""%string))).
        destruct (IH (t + leaderWaitDelay) rest Hp) as [[Hs Hw]|[Hs Hw]].
        -- lia.
        -- simpl in Hlen. lia.
        -- left. split; [|done]. destruct Hs as (t' & l' & Hin & Hc).
           exists t', l'. split; [by apply list_elem_of_further|done].
        -- right. split; [|done]. intros (t' & l' & Hin & Hlt' & Hl').
           apply elem_of_cons in Hin as [[= -> ->]|Hin]; [done|].
           apply Hs. by exists t', l'.
    + right. split; [|done].
      apply (Hlate t ((t, l) :: rest)); [|done]. split; [lia|done].
Qed.

(** X19. When the turns of its loop are at least [leaderWaitDelay] apart,
    [WaitForLeader] returns within 101 turns: without error exactly when a
    leader was seen at a reading taken before the deadline of
    [maxLeaderWait], and with ErrTimeout otherwise. *)
Theorem wait_for_leader_bounded (start : Z) (obs : list (Z * string)) :
  paced start obs -> (100 < length obs)%nat ->
  (leader_seen (start + maxLeaderWait) obs /\ Node_WaitForLeader start obs = Some None) \/
  (~ leader_seen (start + maxLeaderWait) obs /\
   Node_WaitForLeader start obs = Some (Some ErrTimeout)).
Proof.
  intros Hp Hlen. apply (wait_loop_bounded _ 100 start obs Hp); [|done].
  unfold maxLeaderWait, leaderWaitDelay, Second, Millisecond. lia.
Qed.

Lemma wait_for_leader_bounded_witness :
  paced 0 slow_election /\ (100 < length slow_election)%nat /\
  Node_WaitForLeader 0 slow_election = Some None.
Proof.
  assert (Hp : paced 0 slow_election) by (vm_compute; repeat split; discriminate).
  assert (Hl : (100 < length slow_election)%nat) by (vm_compute; lia).
  split; [exact Hp|]. split; [exact Hl|].
  destruct (wait_for_leader_bounded 0 slow_election Hp Hl) as [[_ H]|[_ H]]; [exact H|].
  vm_compute in H. discriminate.
Defined.

(** ** The handlers *)






(** The answer of [handleGet], from what the store returns. *)
Lemma handleGet_response (s : Server) (key : string) (now : Z) (io : IO) :
  fst (handleGet s key now io)
  = match fst (Storage_Get (store (node s)) key now io) with
    | Ok value => {| StatusCode := StatusOK; body := Written (Data value) |}
    | Err err =>
        if decide (err = ErrKeyNotFound \/ err = ErrKeyExpired)
        then {| StatusCode := StatusNotFound; body := ErrorOf err |}
        else {| StatusCode := StatusInternalServerError; body := ErrorOf err |}
    end.
Proof.
  unfold handleGet, Node_Get.
  destruct (Storage_Get (store (node s)) key now io) as [[v|e] st]; simpl; [done|].
  by destruct (decide (e = ErrKeyNotFound \/ e = ErrKeyExpired)).
Qed.






(** X22. A PUT or DELETE that is not answered 200 leaves the node as it
    was.  On a node that does not lead no PUT is answered 200, and DELETE
    is answered 307 with the message "not the leader". *)
Theorem rejected_write_changes_nothing (s : Server) (key : string)
    (data : result (list Byte.byte)) (ttlStr : string) (now : Z) (fut : ApplyFuture)
    (io : IO) :
  (StatusCode (fst (handleSet s key data ttlStr now fut io)) ≠ StatusOK ->
   node (snd (handleSet s key data ttlStr now fut io)) = node s) /\
  (StatusCode (fst (handleDelete s key fut io)) ≠ StatusOK ->
   node (snd (handleDelete s key fut io)) = node s) /\
  (raft_State (node s) ≠ Leader ->
   StatusCode (fst (handleSet s key data ttlStr now fut io)) ≠ StatusOK /\
   fst (handleDelete s key fut io)
   = {| StatusCode := StatusTemporaryRedirect; body := ErrorLine "not the leader" |}).
Proof.
  split; [|split].
  - unfold handleSet. destruct data as [bytes|e]; [|done].
    destruct (parse_ttl ttlStr now) as [expiration|]; [|done].
    unfold Node_Set. destruct (decide (raft_State (node s) ≠ Leader)); [done|].
    destruct fut as [|e]; [done|]. simpl.
    by destruct (decide (e = ErrNotLeader)).
  - unfold handleDelete, Node_Delete.
    destruct (decide (raft_State (node s) ≠ Leader)); [done|].
    destruct fut as [|e]; [done|]. simpl.
    by destruct (decide (e = ErrNotLeader)).
  - intros Hl. split.
    + unfold handleSet. destruct data as [bytes|e]; [|done].
      destruct (parse_ttl ttlStr now) as [expiration|]; [|done].
      unfold Node_Set. by destruct (decide (raft_State (node s) ≠ Leader)).
    + unfold handleDelete, Node_Delete.
      by destruct (decide (raft_State (node s) ≠ Leader)).
Qed.

Lemma rejected_write_changes_nothing_witness :
  raft_State (node follower_server) ≠ Leader /\
  fst (handleSet follower_server "a" (Ok [Byte.x76]) "" 5 Committed io_ok)
  = {| StatusCode := StatusTemporaryRedirect; body := ErrorLine "not the leader" |} /\
  node (snd (handleSet follower_server "a" (Ok [Byte.x76]) "" 5 Committed io_ok))
  = node follower_server /\
  node (snd (handleDelete follower_server "a" Committed io_ok)) = node follower_server.
Proof.
  assert (Hl : raft_State (node follower_server) ≠ Leader) by done.
  destruct (rejected_write_changes_nothing follower_server "a" (Ok [Byte.x76]) "" 5
              Committed io_ok) as (H1 & H2 & H3).
  destruct (H3 Hl) as [H4 H5].
  split; [exact Hl|]. split; [reflexivity|].
  split; [exact (H1 H4) | apply H2; rewrite H5; done].
Defined.



(** X24. When the directory can be read, the handler of all keys answers
    200 with a list without duplicates of exactly the keys for which a GET
    at the same time is answered 200. *)
Theorem listed_keys_are_served (s : Server) (now : Z) (io io' : IO) :
  readdir_fails io = false ->
  exists keys,
    fst (handleGetAll s now io) = {| StatusCode := StatusOK; body := KeysJSON keys |} /\
    NoDup keys /\
    forall k, k ∈ keys <-> StatusCode (fst (handleGet s k now io')) = StatusOK.
Proof.
  intros Hrd. exists (fst (Storage_Keys (store (node s)) now io)).
  split; [|split].
  - unfold handleGetAll, Node_Keys. by destruct (Storage_Keys (store (node s)) now io).
  - apply Storage_Keys_NoDup.
  - intros k. rewrite (Storage_Keys_visible _ now io k Hrd), handleGet_response. split.
    + intros [v Hv]. by rewrite (Storage_Get_visible _ k v now io' Hv).
    + destruct (fst (Storage_Get (store (node s)) k now io')) as [v|e] eqn:Hget.
      * intros _. exists v. by apply Storage_Get_visible_inv in Hget.
      * by destruct (decide (e = ErrKeyNotFound \/ e = ErrKeyExpired)).
Qed.

Lemma listed_keys_are_served_witness :
  readdir_fails io_ok = false /\
  exists keys,
    fst (handleGetAll (snd (handleSet leader_server "k" (Ok [Byte.x76]) "" 5 Committed io_ok))
           9 io_ok)
    = {| StatusCode := StatusOK; body := KeysJSON keys |} /\
    "k"%string ∈ keys.
Proof.
  split; [reflexivity|].
  destruct (listed_keys_are_served
              (snd (handleSet leader_server "k" (Ok [Byte.x76]) "" 5 Committed io_ok))
              9 io_ok io_ok eq_refl) as (keys & Hk & _ & Hiff).
  exists keys. split; [exact Hk|]. apply Hiff. reflexivity.
Defined.

(** * Reads and the reads that follow *)

Lemma visible_live (s : Storage) (now : Z) (k : string) (v : Value) :
  visible s now k = Some v -> expired v now = false.
Proof.
  destruct s as [m|d]; simpl; unfold live_value, disk_value.
  - destruct (m !! k) as [v0|]; [|done].
    destruct (expired v0 now) eqn:Hv0; [done | by intros [= <-]].
  - destruct (memory d !! k) as [v0|].
    + destruct (expired v0 now) eqn:Hv0; [|by intros [= <-]].
      destruct (files d !! k) as [[| | |v1]|]; try done.
      destruct (expired v1 now) eqn:Hv1; [done | by intros [= <-]].
    + destruct (files d !! k) as [[| | |v1]|]; try done.
      destruct (expired v1 now) eqn:Hv1; [done | by intros [= <-]].
Qed.








(** X26. No expired value is served: a value that [Get] returns, and a
    value that [Snapshot] records, has not expired at the time of the
    call, whatever the cache and the directory hold. *)
Theorem expired_values_are_never_served (s : Storage) (k : string) (v : Value)
    (now : Z) (io : IO) :
  (fst (Storage_Get s k now io) = Ok v -> expired v now = false) /\
  (fst (FSM_Snapshot s now io) !! k = Some v -> expired v now = false).
Proof.
  split.
  - intros H. apply Storage_Get_visible_inv in H. by apply visible_live in H.
  - rewrite FSM_Snapshot_data. unfold live_value.
    destruct (cache_of _ !! k) as [v0|]; [|done].
    destruct (expired v0 now) eqn:Hv0; [done | by intros [= <-]].
Qed.

Lemma expired_values_are_never_served_witness :
  fst (Storage_Get mixed_disk "a" 20 io_ok) = Ok (mkValue [Byte.x31] 0) /\
  expired (mkValue [Byte.x31] 0) 20 = false.
Proof.
  assert (H : fst (Storage_Get mixed_disk "a" 20 io_ok) = Ok (mkValue [Byte.x31] 0))
    by reflexivity.
  split; [exact H|].
  exact (proj1 (expired_values_are_never_served mixed_disk "a" _ 20 io_ok) H).
Defined.
